(** * Priority notes widget: scoped note store with optimistic remote sync

    A shallow embedding of [PriorityNotesWidget] (src/store/store.ts): the
    persistence adapter ([emptyStore], [loadStore], [saveStore]), the local
    mutations ([toggleDone], [removeNote], [clearAll]) and the optimistic
    create flow ([addNote]).

    Conventions of the embedding.
    - A JavaScript object used as a dictionary is a [gmap] from property
      names to values; deep equality of objects is equality of maps.
    - A call that may throw returns an [outcome]; [try_catch] is the
      [try { } catch { }] statement.
    - The platform functions [JSON.parse] and [JSON.stringify] are an
      interface ([JSON]); the development is parametric in it, and
      [reference_json] is an executable instance for the integer fragment
      of JSON.
    - Text is a [string] of 8-bit code units; a number is an integer (the
      only numbers the widget creates are [Date.now()] readings), [NaN] or
      an infinity.
    - A cast that is not checked at run time gives no guarantee: what
      [JSON.parse] or [resp.json()] returns is a plain value, whatever
      type the code annotates it with. *)

From Stdlib Require Import ZArith Ascii String.
From stdpp Require Import base option list gmap strings fin_maps pretty.
From stdpp Require Import relations.

(** ** Exceptions *)

Inductive exn : Type :=
| TypeError
| SyntaxError
| SecurityError
| NetworkError
| Error (message : string).

Inductive outcome (A : Type) : Type :=
| Returns (a : A)
| Throws (e : exn).
Arguments Returns {A} a.
Arguments Throws {A} e.

#[global] Instance outcome_ret : MRet outcome := λ A a, Returns a.
#[global] Instance outcome_bind : MBind outcome := λ A B f m,
  match m with
  | Returns a => f a
  | Throws e => Throws e
  end.

Definition try_catch {A} (body : outcome A) (handler : exn → outcome A) : outcome A :=
  match body with
  | Returns a => Returns a
  | Throws e => handler e
  end.

(** ** Values crossing the JSON boundary *)

(** A JavaScript number: an integer, or one of the three values that are
    not finite.  Fractions are left out; they behave as the integers do in
    everything modelled here. *)
Inductive number : Type :=
| Integer (z : Z)
| NaN
| PosInfinity
| NegInfinity.

Coercion Integer : Z >-> number.
Bind Scope Z_scope with number.

#[global] Instance number_eq_dec : EqDecision number.
Proof. solve_decision. Defined.

#[local] Set Warnings "-register-all".
Inductive value : Type :=
| VNull
| VBool (b : bool)
| VNum (n : number)
| VStr (s : string)
| VArr (items : list value)
| VObj (members : list (string * value)).

Coercion VStr : string >-> value.

Class JSON := {
  JSON_parse : string → outcome value;
  JSON_stringify : value → string
}.

(** [Array.isArray] *)
Definition is_array (v : value) : bool :=
  match v with VArr _ => true | _ => false end.

(** Index-keyed properties of an array-like: ["0"], ["1"], ... *)
Definition indexed (items : list value) : list (string * value) :=
  imap (λ (i : nat) v, (pretty i, v)) items.

Definition char_values (s : string) : list value :=
  (λ c, VStr (String c EmptyString)) <$> list_ascii_of_string s.

(** The own enumerable properties an object spread [{...v}] copies.  For an
    object literal with a repeated key the last member wins, as in
    [JSON.parse]; primitives other than strings contribute nothing. *)
Definition own_props (v : value) : gmap string value :=
  match v with
  | VObj members => list_to_map (reverse members)
  | VArr items => list_to_map (indexed items)
  | VStr s => list_to_map (indexed (char_values s))
  | VNull | VBool _ | VNum _ => ∅
  end.

(** A dictionary object seen as a JSON document. *)
Definition object_value (o : gmap string value) : value :=
  VObj (map_to_list o).

(** Induction on values that reaches inside arrays and objects. *)
Section value_induction.
Variable P : value → Prop.
Hypothesis Hnull : P VNull.
Hypothesis Hbool : ∀ b, P (VBool b).
Hypothesis Hnum : ∀ n, P (VNum n).
Hypothesis Hstr : ∀ s, P (VStr s).
Hypothesis Harr : ∀ items, Forall P items → P (VArr items).
Hypothesis Hobj : ∀ members, Forall (λ kv, P kv.2) members → P (VObj members).

Fixpoint value_nested_ind (v : value) : P v :=
  match v with
  | VNull => Hnull
  | VBool b => Hbool b
  | VNum n => Hnum n
  | VStr s => Hstr s
  | VArr items =>
      Harr items
        ((fix all (l : list value) : Forall P l :=
            match l with
            | [] => @List.Forall_nil _ P
            | x :: rest => @List.Forall_cons _ P x rest (value_nested_ind x) (all rest)
            end) items)
  | VObj members =>
      Hobj members
        ((fix all (l : list (string * value)) : Forall (λ kv, P kv.2) l :=
            match l with
            | [] => @List.Forall_nil _ _
            | kv :: rest =>
                @List.Forall_cons _ (λ kv, P kv.2) kv rest
                  (value_nested_ind kv.2) (all rest)
            end) members)
  end.
End value_induction.

(** Equality of values is decidable.  It stands for [===] wherever one side
    is a string, which is how the code compares ids; JavaScript compares
    arrays and objects by identity, and that is not modelled. *)
Definition all2 {A} (eqb : A → A → bool) : list A → list A → bool :=
  fix go (xs ys : list A) : bool :=
    match xs, ys with
    | [], [] => true
    | x :: xs, y :: ys => eqb x y && go xs ys
    | _, _ => false
    end.

Fixpoint value_eqb (a b : value) : bool :=
  match a, b with
  | VNull, VNull => true
  | VBool x, VBool y => bool_decide (x = y)
  | VNum x, VNum y => bool_decide (x = y)
  | VStr x, VStr y => bool_decide (x = y)
  | VArr xs, VArr ys => all2 value_eqb xs ys
  | VObj xs, VObj ys =>
      all2 (λ kx ly, bool_decide (kx.1 = ly.1) && value_eqb kx.2 ly.2) xs ys
  | _, _ => false
  end.

Lemma all2_spec {A} (eqb : A → A → bool) (xs ys : list A) :
  Forall (λ x, ∀ y, eqb x y = true ↔ x = y) xs →
  all2 eqb xs ys = true ↔ xs = ys.
Proof.
  intros H. revert ys. induction H as [|x xs Hx _ IH]; intros [|y ys]; simpl;
    try (split; [discriminate|discriminate]); [done|].
  rewrite andb_true_iff, Hx, IH. split; [by intros [-> ->] | by intros [= -> ->]].
Qed.

Lemma value_eqb_spec (a b : value) : value_eqb a b = true ↔ a = b.
Proof.
  revert b.
  induction a as [|x|x|x|xs IH|xs IH] using value_nested_ind; intros [|y|y|y|ys|ys];
    simpl; try (split; [discriminate|discriminate]); try done.
  - rewrite bool_decide_eq_true. split; [by intros -> | by intros [= ->]].
  - rewrite bool_decide_eq_true. split; [by intros -> | by intros [= ->]].
  - rewrite bool_decide_eq_true. split; [by intros -> | by intros [= ->]].
  - rewrite (all2_spec value_eqb xs ys IH). split; [by intros -> | by intros [= ->]].
  - rewrite all2_spec.
    + split; [by intros -> | by intros [= ->]].
    + eapply Forall_impl; [exact IH|]. intros [k x] Hx [l y]. simpl in *.
      rewrite andb_true_iff, bool_decide_eq_true, Hx.
      split; [by intros [-> ->] | by intros [= -> ->]].
Qed.

Lemma value_eqb_false (a b : value) : value_eqb a b = false → a ≠ b.
Proof. intros H Heq. apply value_eqb_spec in Heq. congruence. Qed.

#[global] Instance value_eq_dec : EqDecision value := λ a b,
  match value_eqb a b as c return value_eqb a b = c → Decision (a = b) with
  | true => λ H, left (proj1 (value_eqb_spec a b) H)
  | false => λ H, right (value_eqb_false a b H)
  end eq_refl.

(** A value that holds no number other than integers: what a JSON text can
    denote. *)
Fixpoint finiteValue (v : value) : bool :=
  match v with
  | VNum (Integer _) => true
  | VNum _ => false
  | VArr items => forallb finiteValue items
  | VObj members => forallb (λ kv, finiteValue kv.2) members
  | VNull | VBool _ | VStr _ => true
  end.

(** ** Data model *)

Inductive Scope : Type := today | week | month | semester | year.

Definition SCOPES : list Scope := [today; week; month; semester; year].

Definition scope_key (s : Scope) : string :=
  match s with
  | today => "today"
  | week => "week"
  | month => "month"
  | semester => "semester"
  | year => "year"
  end.

(** [interface Note].  The id is declared a string, but the one the server
    returns is stored unchecked, so the field holds any value; [createdAt]
    is declared a number. *)
Record Note : Type := mkNote {
  id : value;
  text : string;
  createdAt : number;  (* epoch ms *)
  done : bool
}.

(** [Store = Record<Scope, Note[]>]: an object keyed by scope name. *)
Abbreviation Store := (gmap string (list Note)).

Definition note_value (n : Note) : value :=
  VObj [("id", id n); ("text", VStr (text n));
        ("createdAt", VNum (createdAt n)); ("done", VBool (done n))].

Definition notes_value (l : list Note) : value := VArr (note_value <$> l).

(** The run-time object behind a well-typed store. *)
Definition store_object (s : Store) : gmap string value := notes_value <$> s.

Definition LS_KEY : string := "priorityNotes.v1".

(** ** localStorage *)

Inductive LocalStorage : Type :=
| Blocked                            (* every access throws *)
| Items (m : gmap string string).

Definition getItem (k : string) (ls : LocalStorage) : outcome (option string) :=
  match ls with
  | Blocked => Throws SecurityError
  | Items m => Returns (m !! k)
  end.

Definition setItem (k v : string) (ls : LocalStorage) : outcome LocalStorage :=
  match ls with
  | Blocked => Throws SecurityError
  | Items m => Returns (Items (<[k := v]> m))
  end.

(** ** Persistence adapter *)

Definition emptyStore : Store :=
  <["today" := []]> (<["week" := []]> (<["month" := []]>
    (<["semester" := []]> (<["year" := []]> ∅)))).

Section Persistence.
Context {json : JSON}.

(** [{ ...empty, ...parsed }]: the properties of [parsed] override the
    defaults.  The cast [as Partial<Store>] is unchecked, so the result is
    a plain object. *)
Definition loadStore (ls : LocalStorage) : outcome (gmap string value) :=
  let empty := store_object emptyStore in
  try_catch
    (raw ← getItem LS_KEY ls;
     match raw with
     | None | Some EmptyString => Returns empty        (* if (!raw) *)
     | Some raw =>
         parsed ← JSON_parse raw;
         Returns (own_props parsed ∪ empty)
     end)
    (λ _, Returns empty).

Definition saveStore (store : Store) (ls : LocalStorage) : outcome LocalStorage :=
  setItem LS_KEY (JSON_stringify (object_value (store_object store))) ls.
End Persistence.

(** ** The widget *)

(** Component state: the three [useState] cells. *)
Record Widget : Type := mkWidget {
  scope : Scope;
  input : string;
  store : Store
}.

Definition setStore (f : Store → outcome Store) (w : Widget) : outcome Widget :=
  s ← f (store w);
  Returns {| scope := scope w; input := input w; store := s |}.

Definition setInput (v : string) (w : Widget) : Widget :=
  {| scope := scope w; input := v; store := store w |}.

Definition setScope (sc : Scope) (w : Widget) : Widget :=
  {| scope := sc; input := input w; store := store w |}.

(** [s[scope]] used as an array: a missing property is [undefined], and
    spreading it or calling [.map] / [.filter] on it throws. *)
Definition notesOf (s : Store) (sc : Scope) : outcome (list Note) :=
  match s !! scope_key sc with
  | Some l => Returns l
  | None => Throws TypeError
  end.

(** *** State updaters

    The arrow functions handed to [setStore], named after the Scope Store
    operation each one implements.  All but [clear] have the shape
    [(s) => ({ ...s, [scope]: f(s[scope]) })]. *)
Definition updateScope (sc : Scope) (f : list Note → list Note) (s : Store)
  : outcome Store :=
  l ← notesOf s sc;
  Returns (<[scope_key sc := f l]> s).

(** [(s) => ({ ...s, [scope]: [optimistic, ...s[scope]] })] *)
Definition insertNote (sc : Scope) (n : Note) : Store → outcome Store :=
  updateScope sc (λ l, n :: l).

(** [(n) => n.id === tempId ? { ...n, id: data.id } : n] *)
Definition withId (oldId : string) (newId : value) (n : Note) : Note :=
  if decide (id n = oldId)
  then {| id := newId; text := text n; createdAt := createdAt n; done := done n |}
  else n.

(** [(s) => ({ ...s, [scope]: s[scope].map(...) })] *)
Definition replaceIdentifier (sc : Scope) (oldId : string) (newId : value)
  : Store → outcome Store :=
  updateScope sc (λ l, withId oldId newId <$> l).

(** [(s) => ({ ...s, [scope]: s[scope].filter((n) => n.id !== id) })] *)
Definition remove (sc : Scope) (i : string) : Store → outcome Store :=
  updateScope sc (λ l, filter (λ n, id n ≠ i) l).

(** [(n) => (n.id === id ? { ...n, done: !n.done } : n)] *)
Definition flipDone (i : string) (n : Note) : Note :=
  if decide (id n = i)
  then {| id := id n; text := text n; createdAt := createdAt n; done := negb (done n) |}
  else n.

(** [(s) => ({ ...s, [scope]: s[scope].map(...) })] *)
Definition toggle (sc : Scope) (i : string) : Store → outcome Store :=
  updateScope sc (λ l, flipDone i <$> l).

(** [(s) => ({ ...s, [scope]: [] })] *)
Definition clear (sc : Scope) (s : Store) : Store :=
  <[scope_key sc := []]> s.

(** *** Local operations

    The id handed to [toggleDone] and [removeNote] is a string, as their
    parameter is declared, and [===] against a string is equality with
    that string.  A call with the id of a note whose id is not a string is
    not modelled: JavaScript compares arrays and objects by identity. *)

Definition toggleDone (i : string) (w : Widget) : outcome Widget :=
  setStore (toggle (scope w) i) w.

Definition removeNote (i : string) (w : Widget) : outcome Widget :=
  setStore (remove (scope w) i) w.

(** [confirmed] is the answer of [window.confirm]. *)
Definition clearAll (confirmed : bool) (w : Widget) : outcome Widget :=
  if negb confirmed then Returns w
  else setStore (λ s, Returns (clear (scope w) s)) w.

(** *** String.prototype.trim *)

Definition is_white_space (c : ascii) : bool :=
  match c with
  | "009" | "010" | "011" | "012" | "013" | " " | "160" => true
  | _ => false
  end%char.

Fixpoint trimStart (s : string) : string :=
  match s with
  | String c rest => if is_white_space c then trimStart rest else s
  | EmptyString => EmptyString
  end.

Definition trim (s : string) : string :=
  String.rev (trimStart (String.rev (trimStart s))).

(** *** Remote create *)

Definition API_URL : string :=
  "https://ubhacking2025-ubprioritize-ai.onrender.com/api/schedule/priorityschedule".

(** What [fetch] resolves to: [resp.ok], [resp.status] and the settlement of
    [resp.json()].  A body that is not JSON rejects; one that is JSON gives
    whatever value it denotes, since the annotation [CreateNoteResponse] on
    the result is not checked. *)
Record Response : Type := mkResponse {
  ok : bool;
  status : Z;
  body : outcome value
}.

(** The answers of the environment during one call of [addNote]: the two
    [Date.now()] readings, the digits [Math.random().toString(16).slice(2)]
    and the settlement of [fetch]. *)
Record Env : Type := mkEnv {
  now_id : Z;
  random_digits : string;
  now_created : Z;
  fetched : outcome Response
}.

Inductive Effect : Type :=
| Fetch (url method payload : string)
| ConsoleError (e : exn)
| Alert (message : string).

(** [data?.id]: the property of an object; [undefined] on [null], and on
    the other values too, none of which has a property of that name. *)
Definition data_id (data : value) : option value :=
  match data with
  | VObj _ => own_props data !! "id"
  | VNull | VBool _ | VNum _ | VStr _ | VArr _ => None
  end.

(** Truthiness of a [string | undefined]. *)
Definition truthy (v : option string) : bool :=
  match v with
  | Some (String _ _) => true
  | Some EmptyString | None => false
  end.

(** Truthiness of a value, or of [undefined]. *)
Definition truthyValue (v : option value) : bool :=
  match v with
  | None | Some VNull => false
  | Some (VBool b) => b
  | Some (VNum (Integer z)) => negb (z =? 0)%Z
  | Some (VNum NaN) => false
  | Some (VNum (PosInfinity | NegInfinity)) => true
  | Some (VStr s) => truthy (Some s)
  | Some (VArr _ | VObj _) => true
  end.

Definition tempIdOf (env : Env) : string :=
  "tmp-" +:+ pretty (now_id env) +:+ "-" +:+ random_digits env.

Definition optimisticNote (env : Env) (txt : string) : Note :=
  {| id := tempIdOf env; text := txt; createdAt := now_created env; done := false |}.

Section Sync.
Context {json : JSON}.

Definition createRequest (sc : Scope) (txt : string) : Effect :=
  Fetch API_URL "POST"
    (JSON_stringify
       (VObj [("priorityScope", VStr (scope_key sc)); ("priorities", VStr txt)])).

(** The body of the [try] block up to the decoded payload. *)
Definition awaitCreate (env : Env) : outcome value :=
  resp ← fetched env;
  if negb (ok resp)
  then Throws (Error ("Server responded " +:+ pretty (status resp)))
  else body resp.

(** One call of [addNote], run to completion with no other event handled
    while the request is in flight.  The result is the next component state
    and the effects in the order they happen. *)
Definition addNote (env : Env) (w : Widget) : outcome (Widget * list Effect) :=
  let txt := trim (input w) in
  if decide (txt = "") then Returns (w, [])
  else
    let tempId := tempIdOf env in
    let optimistic := optimisticNote env txt in
    w1 ← setStore (insertNote (scope w) optimistic) w;
    let w2 := setInput "" w1 in
    let request := createRequest (scope w) txt in
    match awaitCreate env with
    | Returns data =>
        if truthyValue (data_id data)
        then
          w3 ← setStore (replaceIdentifier (scope w) tempId (default VNull (data_id data))) w2;
          Returns (w3, [request])
        else Returns (w2, [request])
    | Throws err =>
        w3 ← setStore (remove (scope w) tempId) w2;
        Returns (w3, [request; ConsoleError err;
                      Alert "Could not save note. Please try again."])
    end.
End Sync.

(** ** A reference implementation of the JSON interface

    Executable [JSON.stringify] and [JSON.parse] for documents whose numbers
    are integers and whose text fits 8-bit code units; a number with a
    fraction or an exponent, or an escape above code 255, is outside this
    fragment and is rejected.  A number that is not finite is written
    [null], as [JSON.stringify] does.  It instantiates the interface on
    concrete blobs, and its parser is shown to invert its printer on the
    values whose numbers are finite. *)
Module Reference.

Definition dquote : ascii := "034"%char.
Definition backslash : ascii := "092"%char.

Definition hexDigit (n : N) : ascii :=
  ascii_of_N (if (n <? 10)%N then 48 + n else 87 + n)%N.

Definition hexValue (c : ascii) : option N :=
  let n := N_of_ascii c in
  if ((48 <=? n) && (n <=? 57))%N then Some (n - 48)%N
  else if ((97 <=? n) && (n <=? 102))%N then Some (n - 87)%N
  else if ((65 <=? n) && (n <=? 70))%N then Some (n - 55)%N
  else None.

Definition escapeChar (c : ascii) : string :=
  if decide (c = dquote) then String backslash (String dquote "")
  else if decide (c = backslash) then String backslash (String backslash "")
  else match c with
       | "008" => String backslash "b"
       | "009" => String backslash "t"
       | "010" => String backslash "n"
       | "012" => String backslash "f"
       | "013" => String backslash "r"
       | _ =>
           let n := N_of_ascii c in
           if (n <? 32)%N
           then String backslash
                  (String "u" (String "0" (String "0"
                     (String (hexDigit (n / 16)) (String (hexDigit (n mod 16)) "")))))
           else String c ""
       end%char.

Fixpoint escape (s : string) : string :=
  match s with
  | EmptyString => ""
  | String c rest => escapeChar c +:+ escape rest
  end.

Definition quoteString (s : string) : string :=
  String dquote (escape s +:+ String dquote "").

(** The items of an array or the members of an object, comma separated. *)
Definition joinWith {A} (f : A → string) : list A → string :=
  fix join (l : list A) : string :=
    match l with
    | [] => ""
    | x :: [] => f x
    | x :: rest => f x +:+ "," +:+ join rest
    end.

Fixpoint stringify (v : value) : string :=
  match v with
  | VNull => "null"
  | VBool true => "true"
  | VBool false => "false"
  | VNum (Integer n) => pretty n
  | VNum (NaN | PosInfinity | NegInfinity) => "null"
  | VStr s => quoteString s
  | VArr items => "[" +:+ joinWith stringify items +:+ "]"
  | VObj members =>
      "{" +:+
      joinWith (λ kv, quoteString kv.1 +:+ ":" +:+ stringify kv.2) members
      +:+ "}"
  end.

Definition isJsonSpace (c : ascii) : bool :=
  match c with
  | " " | "009" | "010" | "013" => true
  | _ => false
  end%char.

Fixpoint skipSpace (s : string) : string :=
  match s with
  | String c rest => if isJsonSpace c then skipSpace rest else s
  | EmptyString => EmptyString
  end.

Definition digitValue (c : ascii) : option Z :=
  let n := N_of_ascii c in
  if ((48 <=? n) && (n <=? 57))%N then Some (Z.of_N n - 48)%Z else None.

Fixpoint parseDigits (acc : Z) (s : string) : Z * string :=
  match s with
  | String c rest =>
      match digitValue c with
      | Some d => parseDigits (10 * acc + d)%Z rest
      | None => (acc, s)
      end
  | EmptyString => (acc, s)
  end.

(** After the sign: [0] or a non-empty run of digits not starting with [0],
    not followed by a fraction or an exponent. *)
Definition parseNatural (s : string) : option (Z * string) :=
  match s with
  | String c rest =>
      match digitValue c with
      | Some d =>
          let '(n, rest') :=
            if decide (d = 0%Z) then (0%Z, rest) else parseDigits d rest in
          match rest' with
          | String c' _ =>
              if decide (c' = "."%char ∨ c' = "e"%char ∨ c' = "E"%char)
              then None
              else match digitValue c' with Some _ => None | None => Some (n, rest') end
          | EmptyString => Some (n, rest')
          end
      | None => None
      end
  | EmptyString => None
  end.

(** The characters of a string literal after its opening quote. *)
Fixpoint parseChars (s : string) : option (string * string) :=
  match s with
  | EmptyString => None
  | String c rest =>
      if decide (c = dquote) then Some ("", rest)
      else if decide (c = backslash) then
        match rest with
        | String "u" (String h1 (String h2 (String h3 (String h4 rest')))) =>
            a ← hexValue h1; b ← hexValue h2; c ← hexValue h3; d ← hexValue h4;
            let n := (((a * 16 + b) * 16 + c) * 16 + d)%N in
            if (n <? 256)%N
            then '(str, r) ← parseChars rest'; Some (String (ascii_of_N n) str, r)
            else None
        | String e rest' =>
            ch ← match e with
                 | "034" => Some dquote
                 | "092" => Some backslash
                 | "/" => Some "/"
                 | "b" => Some "008"
                 | "f" => Some "012"
                 | "n" => Some "010"
                 | "r" => Some "013"
                 | "t" => Some "009"
                 | _ => None
                 end%char;
            '(str, r) ← parseChars rest'; Some (String ch str, r)
        | EmptyString => None
        end
      else if (N_of_ascii c <? 32)%N then None
      else '(str, r) ← parseChars rest; Some (String c str, r)
  end.

Fixpoint stripPrefix (word s : string) : option string :=
  match word with
  | EmptyString => Some s
  | String a word' =>
      match s with
      | String b s' => if decide (a = b) then stripPrefix word' s' else None
      | EmptyString => None
      end
  end.

Definition expect (word : string) (v : value) (s : string) : option (value * string) :=
  rest ← stripPrefix word s; Some (v, rest).

Fixpoint parseValue (fuel : nat) (s : string) : option (value * string) :=
  match fuel with
  | O => None
  | S fuel =>
      match skipSpace s with
      | EmptyString => None
      | String c rest =>
          if decide (c = dquote) then
            '(str, r) ← parseChars rest; Some (VStr str, r)
          else if decide (c = "n"%char) then expect "ull" VNull rest
          else if decide (c = "t"%char) then expect "rue" (VBool true) rest
          else if decide (c = "f"%char) then expect "alse" (VBool false) rest
          else if decide (c = "-"%char) then
            '(n, r) ← parseNatural rest; Some (VNum (Integer (- n)), r)
          else if decide (c = "["%char) then
            match skipSpace rest with
            | EmptyString => None
            | String c' r =>
                if decide (c' = "]"%char) then Some (VArr [], r)
                else '(items, r') ← parseElements fuel rest; Some (VArr items, r')
            end
          else if decide (c = "{"%char) then
            match skipSpace rest with
            | EmptyString => None
            | String c' r =>
                if decide (c' = "}"%char) then Some (VObj [], r)
                else '(members, r') ← parseMembers fuel rest; Some (VObj members, r')
            end
          else '(n, r) ← parseNatural (String c rest); Some (VNum (Integer n), r)
      end
  end
with parseElements (fuel : nat) (s : string) : option (list value * string) :=
  match fuel with
  | O => None
  | S fuel =>
      '(v, r) ← parseValue fuel s;
      match skipSpace r with
      | EmptyString => None
      | String c r' =>
          if decide (c = ","%char) then
            '(vs, r'') ← parseElements fuel r'; Some (v :: vs, r'')
          else if decide (c = "]"%char) then Some ([v], r')
          else None
      end
  end
with parseMembers (fuel : nat) (s : string) : option (list (string * value) * string) :=
  match fuel with
  | O => None
  | S fuel =>
      match skipSpace s with
      | EmptyString => None
      | String c rest =>
          if decide (c = dquote) then
            '(k, r) ← parseChars rest;
            match skipSpace r with
            | EmptyString => None
            | String c1 r1 =>
                if decide (c1 = ":"%char) then
                  '(v, r2) ← parseValue fuel r1;
                  match skipSpace r2 with
                  | EmptyString => None
                  | String c2 r3 =>
                      if decide (c2 = ","%char) then
                        '(ms, r4) ← parseMembers fuel r3; Some ((k, v) :: ms, r4)
                      else if decide (c2 = "}"%char) then Some ([(k, v)], r3)
                      else None
                  end
                else None
            end
          else None
      end
  end.

Definition parse (s : string) : outcome value :=
  match parseValue (2 * String.length s + 2) s with
  | Some (v, rest) =>
      match skipSpace rest with
      | EmptyString => Returns v
      | String _ _ => Throws SyntaxError
      end
  | None => Throws SyntaxError
  end.

(** *** Vocabulary for reading a printed value back *)

(** Fuel that suffices to read a value back. *)
Fixpoint need (v : value) : nat :=
  match v with
  | VArr items => S (foldr (λ x n, S (max (need x) n)) 0%nat items)
  | VObj members => S (foldr (λ kv n, S (max (need kv.2) n)) 0%nat members)
  | _ => 1
  end.

Definition needElements (items : list value) : nat :=
  foldr (λ x n, S (max (need x) n)) 0%nat items.

Definition needMembers (members : list (string * value)) : nat :=
  foldr (λ kv n, S (max (need kv.2) n)) 0%nat members.

Definition member (kv : string * value) : string :=
  quoteString kv.1 +:+ ":" +:+ stringify kv.2.

(** What may follow a value: nothing, or the separator or bracket that
    closes it. *)
Definition afterValue (rest : string) : Prop :=
  match rest with
  | String c _ => c = ","%char ∨ c = "]"%char ∨ c = "}"%char
  | EmptyString => True
  end.

(** With enough fuel the parser reads [v] back from its text, whatever may
    follow it. *)
Definition ReadsBack (v : value) : Prop :=
  ∀ rest fuel, afterValue rest → need v ≤ fuel →
    parseValue fuel (stringify v +:+ rest) = Some (v, rest).

End Reference.

Definition reference_json : JSON := {|
  JSON_parse := Reference.parse;
  JSON_stringify := Reference.stringify
|}.

(** A string in double quotes, for writing blobs. *)
Definition quoted (s : string) : string :=
  String Reference.dquote (s +:+ String Reference.dquote "").

(** ** Specification vocabulary *)

(** Every scope key is present. *)
Definition AllScopes {V} (o : gmap string V) : Prop :=
  ∀ sc : Scope, is_Some (o !! scope_key sc).

(** The widget with the sequence of its selected scope replaced. *)
Definition withNotes (w : Widget) (l : list Note) : Widget :=
  {| scope := scope w; input := input w;
     store := <[scope_key (scope w) := l]> (store w) |}.

(** The widget once a text has been submitted: the composer is cleared and
    the selected scope holds [l]. *)
Definition afterSubmit (w : Widget) (l : list Note) : Widget :=
  {| scope := scope w; input := "";
     store := <[scope_key (scope w) := l]> (store w) |}.

Definition failureNotice : string := "Could not save note. Please try again.".

(** A well-formed note of the data model: the id is a string and the
    creation time a finite number. *)
Definition wellFormedNote (n : Note) : Prop :=
  (∃ s : string, id n = VStr s) ∧ (∃ z : Z, createdAt n = Integer z).

Definition wellFormed (c : Store) : Prop :=
  ∀ k l n, c !! k = Some l → n ∈ l → wellFormedNote n.

(** A note with its completion flag flipped and nothing else changed. *)
Definition flipped (n : Note) : Note :=
  {| id := id n; text := text n; createdAt := createdAt n; done := negb (done n) |}.

(** The three ways the remote create can fail: a transport fault, a
    non-success status, a body that is not JSON. *)
Definition createFails (env : Env) (err : exn) : Prop :=
  fetched env = Throws err
  ∨ (∃ r, fetched env = Returns r ∧ ok r = false
          ∧ err = Error ("Server responded " +:+ pretty (status r)))
  ∨ (∃ r, fetched env = Returns r ∧ ok r = true ∧ body r = Throws err).

(** ** Sample data *)
Module Sample.

Definition milk : Note := mkNote "n1" "Buy milk" 1000 false.
Definition essay : Note := mkNote "n2" "Essay draft" 2000 true.
Definition exam : Note := mkNote "n3" "Exam revision" 3000 false.

Definition notes : Store :=
  <["today" := [milk; essay]]> (<["week" := [exam]]> emptyStore).

Definition widget : Widget := mkWidget today "  Call home " notes.

(** Stored blobs: [{"today":42}], [{"week":null}] and a blob that carries
    the week scope only. *)
Definition malformedBlob : string := "{" +:+ quoted "today" +:+ ":42}".

Definition nullWeekBlob : string := "{" +:+ quoted "week" +:+ ":null}".

Definition weekOnlyBlob : string :=
  "{" +:+ quoted "week" +:+ ":[{" +:+ quoted "id" +:+ ":" +:+ quoted "n3" +:+ ","
  +:+ quoted "text" +:+ ":" +:+ quoted "Exam revision" +:+ ","
  +:+ quoted "createdAt" +:+ ":3000," +:+ quoted "done" +:+ ":false}]}".

(** A note stored under the id that [offline] makes the next call
    generate, widgets around it, and answers of the environment. *)
Definition clash : Note :=
  mkNote "tmp-1762146000000-c4e1a" "Water plants" 1762146000001 false.

Definition clashWidget : Widget :=
  mkWidget today "Buy milk" (<["today" := [clash]]> emptyStore).

Definition blankWidget : Widget := mkWidget today "   " notes.

Definition offline : Env :=
  mkEnv 1762146000000 "c4e1a" 1762146000001 (Throws NetworkError).

(** A server that answers 201 with the body [{"id": canonical}], or with
    [{}] when there is no id to give. *)
Definition created (canonical : option value) : Env :=
  mkEnv 1762146000000 "c4e1a" 1762146000001
    (Returns (mkResponse true 201
       (Returns (VObj (match canonical with
                       | Some i => [("id", i)]
                       | None => []
                       end))))).

Definition milkWidget : Widget := mkWidget today "Buy milk" emptyStore.

(** The body [{"id":123}] of a response. *)
Definition numericIdBody : string := "{" +:+ quoted "id" +:+ ":123}".

(** A note whose creation time is [NaN], and a collection that holds it. *)
Definition undated : Note := mkNote "n4" "Buy milk" NaN false.

Definition undatedStore : Store := <["today" := [undated]]> emptyStore.

End Sample.

(** * Further parts of the code

    The rest of the widget and what surrounds it: the updaters of the
    widget taken together, the session keys of the dashboard, the date
    texts of the plan slice and the chat window. *)

(** ** The updaters of the widget *)

(** The updaters the widget hands to [setStore], as data: the three of
    [addNote] (insert, id swap, rollback) and those of [toggleDone],
    [removeNote] and [clearAll]. *)
Inductive Update : Type :=
| Insert (n : Note)
| Replace (oldId : string) (newId : value)
| Remove (i : string)
| Toggle (i : string)
| Clear.

Definition applyUpdate (sc : Scope) (u : Update) (s : Store) : outcome Store :=
  match u with
  | Insert n => insertNote sc n s
  | Replace oldId newId => replaceIdentifier sc oldId newId s
  | Remove i => remove sc i s
  | Toggle i => toggle sc i s
  | Clear => Returns (clear sc s)
  end.

(** The ids an update looks at. *)
Definition idsOf (u : Update) : list value :=
  match u with
  | Insert n => [id n]
  | Replace oldId newId => [VStr oldId; newId]
  | Remove i => [VStr i]
  | Toggle i => [VStr i]
  | Clear => []
  end.

(** The updates that rewrite or drop notes by id: the two settlements of a
    pending note and the two local edits. *)
Definition byId (u : Update) : bool :=
  match u with
  | Replace _ _ | Remove _ | Toggle _ => true
  | Insert _ | Clear => false
  end.

(** What an update needs for the ids of the scope to stay distinct: a new
    note, or a new id, must not be in use there. *)
Definition keepsIdsDistinct (u : Update) (l : list Note) : Prop :=
  match u with
  | Insert n => id n ∉ id <$> l
  | Replace _ newId => newId ∉ id <$> l
  | Remove _ | Toggle _ | Clear => True
  end.

(** What the user wrote and when: the part of a note no update edits. *)
Definition written (n : Note) : string * number := (text n, createdAt n).

(** Text made of white space only (the empty text included). *)
Fixpoint allWhite (s : string) : bool :=
  match s with
  | EmptyString => true
  | String c rest => is_white_space c && allWhite rest
  end.

(** Text that does not begin with white space. *)
Definition startsPlain (s : string) : Prop :=
  match s with
  | EmptyString => True
  | String c _ => is_white_space c = false
  end.

(** Text made of decimal digits only. *)
Fixpoint allDigits (s : string) : bool :=
  match s with
  | EmptyString => true
  | String c rest => bool_decide (is_Some (Reference.digitValue c)) && allDigits rest
  end.

(** The effects that are requests. *)
Definition isFetch (e : Effect) : bool :=
  match e with Fetch _ _ _ => true | _ => false end.

(** ** Dashboard: the session keys in localStorage

    The mount effect and [handleLogout] of [Dashboard]
    (src/pages/Dashboard.tsx), over the same [LocalStorage] as the notes.
    Navigation and the toast are recorded as effects. *)

(** [localStorage.removeItem] *)
Definition removeItem (k : string) (ls : LocalStorage) : outcome LocalStorage :=
  match ls with
  | Blocked => Throws SecurityError
  | Items m => Returns (Items (delete k m))
  end.

Inductive DashboardEffect : Type :=
| Navigate (path : string)
| ToastSuccess (message : string).

(** The mount effect of [Dashboard]: the next [userEmail] state and what
    the effect does. *)
Definition dashboardMount (ls : LocalStorage) (userEmail : string)
  : outcome (string * list DashboardEffect) :=
  isAuthenticated ← getItem "isAuthenticated" ls;
  email ← getItem "userEmail" ls;
  if negb (truthy isAuthenticated) then Returns (userEmail, [Navigate "/"])
  else if truthy email then Returns (default "" email, [])
  else Returns (userEmail, []).

(** [handleLogout]: the storage it leaves and what it does. *)
Definition handleLogout (ls : LocalStorage)
  : outcome (LocalStorage * list DashboardEffect) :=
  ls1 ← removeItem "isAuthenticated" ls;
  ls2 ← removeItem "userEmail" ls1;
  Returns (ls2, [ToastSuccess "Logged out successfully"; Navigate "/"]).

(** ** planSlice: date texts of the plan

    [parseDateString], [transformPlanData] and the reducers [updateData]
    and [clearData] of the plan slice (unnamed/part_000).

    The [Date] constructor is the platform's.  It is modelled after the
    language definition: a date is its time value, the milliseconds since
    the epoch in UTC, or it is invalid; the local time asked for is turned
    into days and milliseconds ([MakeDay], [MakeTime], [MakeDate]), which
    rolls over a day beyond the end of its month and minutes beyond the
    hour, then into UTC, and is clipped to the range of dates.  The time
    zone is a parameter. *)

(** The time zone of the platform: [utcOffset t] is how many milliseconds
    local time is ahead of UTC at the local time value [t].  No offset
    reaches a day. *)
Class TimeZone := {
  utcOffset : Z → Z;
  utcOffset_bound : ∀ t, (-86400000 < utcOffset t < 86400000)%Z
}.

Definition utcZone : TimeZone.
Proof. refine {| utcOffset := λ _, 0%Z |}. intros _. lia. Defined.

Inductive JsDate : Type :=
| DateAt (time : Z)
| InvalidDate.

Definition inLeapYear (y : Z) : bool :=
  ((y mod 4 =? 0) && negb (y mod 100 =? 0) || (y mod 400 =? 0))%Z.

(** [DayFromYear]: the day number of the first day of year [y]. *)
Definition dayFromYear (y : Z) : Z :=
  (365 * (y - 1970) + (y - 1969) / 4 - (y - 1901) / 100 + (y - 1601) / 400)%Z.

(** The day within its year of the first day of month [m], from 0. *)
Definition dayWithinYear (leap : bool) (m : Z) : Z :=
  let l := (if leap then 1 else 0)%Z in
  match m with
  | 0 => 0 | 1 => 31 | 2 => 59 + l | 3 => 90 + l | 4 => 120 + l | 5 => 151 + l
  | 6 => 181 + l | 7 => 212 + l | 8 => 243 + l | 9 => 273 + l | 10 => 304 + l
  | _ => 334 + l
  end%Z.

(** [MakeDay], [MakeTime] (seconds and milliseconds are zero here) and
    [MakeDate]. *)
Definition makeDay (year month date : Z) : Z :=
  let ym := (year + month / 12)%Z in
  let mn := (month mod 12)%Z in
  (dayFromYear ym + dayWithinYear (inLeapYear ym) mn + date - 1)%Z.

Definition makeTime (hour min : Z) : Z := (hour * 3600000 + min * 60000)%Z.

Definition makeDate (day time : Z) : Z := (day * 86400000 + time)%Z.

(** [TimeClip]: a hundred million days either side of the epoch. *)
Definition timeClip (time : Z) : JsDate :=
  if (Z.abs time <=? 8640000000000000)%Z then DateAt time else InvalidDate.

(** [MakeFullYear]: a year from 0 to 99 counts from 1900. *)
Definition makeFullYear (y : Z) : Z :=
  if decide (0 ≤ y ≤ 99)%Z then (1900 + y)%Z else y.

Section PlanSlice.
Context {tz : TimeZone}.

(** [UTC]: a local time value as a time value. *)
Definition utc (t : Z) : Z := (t - utcOffset t)%Z.

(** The date that shows the local time [hours]:[minutes] on day [date] of
    month [monthIndex] (from 0) of year [fullYear]. *)
Definition LocalTime (fullYear monthIndex date hours minutes : Z) : JsDate :=
  timeClip (utc (makeDate (makeDay fullYear monthIndex date) (makeTime hours minutes))).

(** [new Date(y, m, d, h, mi)]; [None] is an argument that is not a number
    ([NaN], [undefined]). *)
Definition newDate (fullYear monthIndex date hours minutes : option Z) : JsDate :=
  match fullYear, monthIndex, date, hours, minutes with
  | Some y, Some m, Some d, Some h, Some mi => LocalTime (makeFullYear y) m d h mi
  | _, _, _, _, _ => InvalidDate
  end.

(** The character classes [\w] and [\d]. *)
Definition isWordChar (c : ascii) : bool :=
  let n := N_of_ascii c in
  ((48 <=? n) && (n <=? 57) || (65 <=? n) && (n <=? 90)
   || (97 <=? n) && (n <=? 122) || (n =? 95))%N.

Definition isDigitChar (c : ascii) : bool :=
  let n := N_of_ascii c in ((48 <=? n) && (n <=? 57))%N.

(** The longest run of characters of a class at the head of a text, and
    what follows it. *)
Fixpoint span (p : ascii → bool) (s : string) : string * string :=
  match s with
  | String c rest =>
      if p c then let '(run, after) := span p rest in (String c run, after)
      else (EmptyString, s)
  | EmptyString => (EmptyString, EmptyString)
  end.

(** A group [(\w+)] or [(\d+)] followed by a character outside its class:
    the greedy run, which must not be empty.  A shorter run would be
    followed by a character of the class, so backtracking cannot help. *)
Definition group (p : ascii → bool) (s : string) : option (string * string) :=
  match span p s with
  | (EmptyString, _) => None
  | (run, after) => Some (run, after)
  end.

Record DateMatch : Type := mkDateMatch {
  monthName : string;
  day : string;
  yearText : string;
  hourStr : string;
  minuteStr : string;
  ampm : string
}.

(** [/(\w+) (\d+), (\d+), (\d+):(\d+) (AM|PM)/] tried at the head of [s]. *)
Definition matchAt (s : string) : option DateMatch :=
  '(mon, r) ← group isWordChar s;
  r ← Reference.stripPrefix " " r;
  '(d, r) ← group isDigitChar r;
  r ← Reference.stripPrefix ", " r;
  '(y, r) ← group isDigitChar r;
  r ← Reference.stripPrefix ", " r;
  '(h, r) ← group isDigitChar r;
  r ← Reference.stripPrefix ":" r;
  '(mi, r) ← group isDigitChar r;
  r ← Reference.stripPrefix " " r;
  ap ← (if Reference.stripPrefix "AM" r is Some _ then Some "AM"
        else if Reference.stripPrefix "PM" r is Some _ then Some "PM"
        else None);
  Some (mkDateMatch mon d y h mi ap).

(** [dateStr.match(...)]: the first position where the pattern matches. *)
Fixpoint matchDate (s : string) : option DateMatch :=
  match matchAt s with
  | Some m => Some m
  | None =>
      match s with
      | String _ rest => matchDate rest
      | EmptyString => None
      end
  end.

(** [parseInt(text, 10)] on a text without sign or leading white space:
    the value of its leading digits, [None] (NaN) when there is none.
    The value is exact; a run of digits so long that JavaScript rounds it
    stands for a year, a day or minutes far outside the range of dates,
    rounded or not. *)
Definition parseInt10 (s : string) : option Z :=
  match s with
  | String c _ =>
      if isDigitChar c then Some (Reference.parseDigits 0 s).1 else None
  | EmptyString => None
  end.

(** [monthMap[monthName]]: the index of a month abbreviation.  A name
    that is no key of the table gives [undefined], or a property inherited
    from [Object.prototype]; neither is a number, so [None] stands for
    both. *)
Definition monthMap : gmap string Z :=
  list_to_map
    [("Jan", 0); ("Feb", 1); ("Mar", 2); ("Apr", 3); ("May", 4); ("Jun", 5);
     ("Jul", 6); ("Aug", 7); ("Sep", 8); ("Oct", 9); ("Nov", 10); ("Dec", 11)]%Z.

(** The conversion of the hour to the 24-hour clock. *)
Definition to24Hour (ap : string) (hours : Z) : Z :=
  if bool_decide (ap = "PM") && (hours <? 12)%Z then (hours + 12)%Z
  else if bool_decide (ap = "AM") && (hours =? 12)%Z then 0%Z
  else hours.

Definition parseDateString (dateStr : string) : JsDate :=
  match matchDate dateStr with
  | None => newDate (Some 2025%Z) (Some 10%Z) (Some 11%Z) (Some 12%Z) (Some 30%Z)
  | Some m =>
      newDate (parseInt10 (yearText m)) (monthMap !! monthName m)
        (parseInt10 (day m)) (to24Hour (ampm m) <$> parseInt10 (hourStr m))
        (parseInt10 (minuteStr m))
  end.

(** [RawPlanItem]: an item of the payload, its dates as text. *)
Record RawPlanItem : Type := mkRawPlanItem {
  raw_title : string;
  raw_start : string;
  raw_end : string
}.

Record PlanItem : Type := mkPlanItem {
  title : string;
  start : JsDate;
  end_ : JsDate
}.

(** [PlanState.value]: the plan, or [null]. *)
Record PlanState : Type := mkPlanState {
  planValue : option (list PlanItem)
}.

Definition transformPlanData (rawData : list RawPlanItem) : list PlanItem :=
  (λ item, {| title := raw_title item;
              start := parseDateString (raw_start item);
              end_ := parseDateString (raw_end item) |}) <$> rawData.

(** The reducers; [console.log] of the new plan is left out. *)
Definition updateData (state : PlanState) (payload : list RawPlanItem) : PlanState :=
  {| planValue := Some (transformPlanData payload) |}.

Definition clearData (state : PlanState) : PlanState :=
  {| planValue := None |}.

End PlanSlice.

(** A text that holds the character [c]. *)
Fixpoint hasChar (c : ascii) (s : string) : bool :=
  match s with
  | EmptyString => false
  | String c' rest => bool_decide (c' = c) || hasChar c rest
  end.

(** A text made of characters of the class only. *)
Fixpoint allOf (p : ascii → bool) (s : string) : bool :=
  match s with
  | EmptyString => true
  | String c rest => p c && allOf p rest
  end.

(** A text that does not begin with a character of the class. *)
Definition headFails (p : ascii → bool) (s : string) : Prop :=
  match s with
  | EmptyString => True
  | String c _ => p c = false
  end.

(** ** ChatLauncher: one question, one answer

    [handleSend] of [ChatLauncher] (src/components/ui/ChatLauncher.tsx).  The handler runs to its [await],
    the component renders with [loading] set, and the handler resumes when
    [sendFn] settles: [submit] is the part before the [await], [settle]
    the part after it.  The two fixed texts of the component hold
    characters outside the 8-bit text modelled here, so they are
    parameters of the model. *)

Module ChatLauncher.

Inductive Role : Type := user | assistant | system.

Record ChatMessage : Type := mkChatMessage {
  id : string;
  role : Role;
  content : string
}.

Record State : Type := mkState {
  open : bool;
  input : string;
  messages : list ChatMessage;
  loading : bool
}.

Definition setOpen (b : bool) (st : State) : State :=
  {| open := b; input := input st; messages := messages st; loading := loading st |}.

Definition setInput (s : string) (st : State) : State :=
  {| open := open st; input := s; messages := messages st; loading := loading st |}.

(** [setMessages((m) => [...m, msg])] *)
Definition pushMessage (msg : ChatMessage) (st : State) : State :=
  {| open := open st; input := input st; messages := messages st ++ [msg];
     loading := loading st |}.

Definition setLoading (b : bool) (st : State) : State :=
  {| open := open st; input := input st; messages := messages st; loading := b |}.

(** What [sendFn] rejected with, as far as the [catch] clause looks at it:
    its [message] property when it has one that is neither null nor
    undefined, and the text the value itself converts to. *)
Record Rejection : Type := mkRejection {
  message : option string;
  shown : string
}.

(** [e?.message ?? e], as the template literal renders it. *)
Definition errorText (e : Rejection) : string := default (shown e) (message e).

(** The call [sendFn(history, userText)]. *)
Record Request : Type := mkRequest {
  history : list ChatMessage;
  userText : string
}.

Section Texts.
Variable greeting : string.
Variable oops : string.

(** The state of the first render; [uid0] is the [uid()] of the greeting. *)
Definition initial (uid0 : string) (defaultOpen : bool) : State :=
  {| open := defaultOpen; input := "";
     messages := [ {| id := uid0; role := assistant; content := greeting |} ];
     loading := false |}.

(** [handleSend] up to its [await]: nothing when the text is blank or a
    reply is pending, else the next state and the request made. *)
Definition submit (uid1 : string) (raw : option string) (st : State)
  : option (State * Request) :=
  let text := trim (default (input st) raw) in
  if negb (truthy (Some text)) || loading st then None
  else
    let userMsg := {| id := uid1; role := user; content := text |} in
    Some (setLoading true (setInput "" (pushMessage userMsg st)),
          {| history := messages st ++ [userMsg]; userText := text |}).

(** [handleSend] from the settlement of [sendFn] on. *)
Definition settle (uid2 : string) (result : string + Rejection) (st : State) : State :=
  let answer :=
    match result with
    | inl reply => reply
    | inr e => oops +:+ errorText e
    end in
  setLoading false (pushMessage {| id := uid2; role := assistant; content := answer |} st).

(** The answers of the environment during one call of [handleSend]. *)
Record Answers : Type := mkAnswers {
  uid1 : string;
  uid2 : string;
  result : string + Rejection
}.

(** One call of [handleSend], run to completion with nothing in between. *)
Definition handleSend (env : Answers) (raw : option string) (st : State)
  : State * list Request :=
  match submit (uid1 env) raw st with
  | None => (st, [])
  | Some (st1, request) => (settle (uid2 env) (result env) st1, [request])
  end.

(** What can happen to the component: the user types, opens or closes the
    window, [handleSend] passes its guard, or a pending [sendFn] settles. *)
Inductive step : State → State → Prop :=
| step_type st s : step st (setInput s st)
| step_open st b : step st (setOpen b st)
| step_submit st uid raw st1 request :
    submit uid raw st = Some (st1, request) → step st st1
| step_settle st uid result :
    loading st = true → step st (settle uid result st).

(** A conversation of [n] answered questions, with one more question
    waiting for its answer when [pending]. *)
Definition turns (n : nat) (pending : bool) : list Role :=
  assistant :: concat (replicate n [user; assistant])
    ++ (if pending then [user] else []).

End Texts.
End ChatLauncher.

(** ** More sample data *)

Module Scenario.

(** The session keys the login page leaves in localStorage. *)
Definition session : gmap string string :=
  <["isAuthenticated" := "true"]> (<["userEmail" := "sam@buffalo.edu"]> ∅).

(** Date texts: one of the shape the plan uses, one with a year of two
    digits, one with a day and minutes that overflow and the date they
    roll over to, one with the month spelled out, one in another format. *)
Definition evening : string := "Nov 8, 2025, 10:00 PM".
Definition shortYear : string := "Nov 8, 25, 10:00 AM".
Definition overflowing : string := "Nov 31, 2025, 10:75 AM".
Definition nextDay : string := "Dec 1, 2025, 11:15 AM".
Definition spelledOut : string := "November 8, 2025, 10:00 AM".
Definition isoText : string := "2025-11-08T10:00".

Definition rawPlan : list RawPlanItem :=
  [ mkRawPlanItem "Team Meeting" evening evening;
    mkRawPlanItem "Lunch Break" isoText isoText ].

(** A chat window with a question typed, and an API that is down. *)
Definition asking : ChatLauncher.State :=
  ChatLauncher.setInput "  Any classes today? "
    (ChatLauncher.initial "Hi!" "u0" true).

Definition down : ChatLauncher.Answers :=
  ChatLauncher.mkAnswers "u1" "u2"
    (inr (ChatLauncher.mkRejection (Some "Failed to fetch") "TypeError: Failed to fetch")).

End Scenario.

(** * Properties *)

(** ** Basic facts *)

Lemma scope_key_inj (a b : Scope) : scope_key a = scope_key b → a = b.
Proof. by destruct a, b. Qed.

Lemma notesOf_Some (s : Store) sc l :
  s !! scope_key sc = Some l → notesOf s sc = Returns l.
Proof. unfold notesOf. by intros ->. Qed.

Lemma updateScope_Some sc f (s : Store) l :
  s !! scope_key sc = Some l →
  updateScope sc f s = Returns (<[scope_key sc := f l]> s).
Proof. intros H. unfold updateScope. by rewrite (notesOf_Some _ _ _ H). Qed.

Lemma setStore_update sc f (w : Widget) l :
  store w !! scope_key sc = Some l →
  setStore (updateScope sc f) w
  = Returns {| scope := scope w; input := input w;
               store := <[scope_key sc := f l]> (store w) |}.
Proof. intros H. unfold setStore. by rewrite (updateScope_Some _ _ _ _ H). Qed.

Lemma withNotes_same (w : Widget) l :
  store w !! scope_key (scope w) = Some l → withNotes w l = w.
Proof.
  intros H. destruct w as [sc inp st]; unfold withNotes; simpl in *.
  by rewrite insert_id.
Qed.

Lemma withId_absent (oldId : string) (newId : value) (l : list Note) :
  (∀ n, n ∈ l → id n ≠ oldId) → withId oldId newId <$> l = l.
Proof.
  induction l as [|n l IH]; intros H; [done|].
  rewrite fmap_cons, IH by (intros x ?; apply H; by right).
  unfold withId. rewrite decide_False; [done|]. apply H; by left.
Qed.

Lemma flipDone_absent (i : string) (l : list Note) :
  (∀ n, n ∈ l → id n ≠ i) → flipDone i <$> l = l.
Proof.
  induction l as [|n l IH]; intros H; [done|].
  rewrite fmap_cons, IH by (intros x ?; apply H; by right).
  unfold flipDone. rewrite decide_False; [done|]. apply H; by left.
Qed.

Lemma filter_absent (i : string) (l : list Note) :
  (∀ n, n ∈ l → id n ≠ i) → filter (λ n, id n ≠ i) l = l.
Proof.
  induction l as [|n l IH]; intros H; [done|].
  rewrite filter_cons_True by (apply H; by left).
  rewrite IH; [done|]. intros x ?; apply H; by right.
Qed.

(** ** Identifier reconciliation *)

(** C6. Replacing [oldId] by [newId] in a scope whose sequence is [l] yields
    a sequence of the same length in which, position by position, a note
    carrying [oldId] has its id rewritten to [newId] with text, timestamp
    and completion flag kept, and any other note is untouched; the other
    keys of the collection are untouched; and when no note of the scope
    carries [oldId] the collection is returned unchanged, without error. *)
Theorem replaceIdentifier_preserves
    (sc : Scope) (oldId : string) (newId : value) (s : Store) (l : list Note) :
  s !! scope_key sc = Some l →
  ∃ (s' : Store) (l' : list Note),
    replaceIdentifier sc oldId newId s = Returns s'
    ∧ s' !! scope_key sc = Some l'
    ∧ (∀ k, k ≠ scope_key sc → s' !! k = s !! k)
    ∧ length l' = length l
    ∧ (∀ (k : nat) (n : Note), l !! k = Some n →
         ∃ n', l' !! k = Some n'
           ∧ text n' = text n ∧ createdAt n' = createdAt n ∧ done n' = done n
           ∧ (id n = oldId → id n' = newId)
           ∧ (id n ≠ oldId → n' = n))
    ∧ ((∀ n, n ∈ l → id n ≠ oldId) → s' = s).
Proof.
  intros Hl.
  exists (<[scope_key sc := withId oldId newId <$> l]> s), (withId oldId newId <$> l).
  split; [by apply updateScope_Some|].
  split; [by rewrite lookup_insert_eq|].
  split; [by intros k Hk; rewrite lookup_insert_ne|].
  split; [by rewrite length_fmap|].
  split.
  - intros k n Hk. exists (withId oldId newId n).
    split; [by rewrite list_lookup_fmap, Hk|].
    unfold withId. destruct (decide (id n = oldId)); simpl; naive_solver.
  - intros Habs. rewrite withId_absent by done. by apply insert_id.
Qed.

Lemma replaceIdentifier_preserves_witness :
  Sample.notes !! scope_key today = Some [Sample.milk; Sample.essay]
  ∧ ∃ s' : Store,
      replaceIdentifier today "n1" "srv-1" Sample.notes = Returns s'
      ∧ s' !! scope_key today
        = Some [mkNote "srv-1" "Buy milk" 1000 false; Sample.essay].
Proof.
  split; [reflexivity|].
  destruct (replaceIdentifier_preserves today "n1" "srv-1" Sample.notes
              [Sample.milk; Sample.essay] eq_refl)
    as (s' & l' & Hrun & Hl' & _).
  exists s'. split; [exact Hrun|].
  unfold replaceIdentifier in Hrun.
  rewrite (updateScope_Some today _ Sample.notes [Sample.milk; Sample.essay] eq_refl)
    in Hrun.
  injection Hrun as <-. rewrite lookup_insert_eq. reflexivity.
Defined.

(** ** Local operations *)

(** C8. Clearing a scope binds that scope to the empty sequence and leaves
    every other key of the collection, hence the four other scopes, as it
    was.  [clearAll] applies exactly this update once the confirmation
    dialog is accepted, and changes nothing when it is declined. *)
Theorem clear_scope_local (sc : Scope) (s : Store) :
  clear sc s !! scope_key sc = Some []
  ∧ (∀ sc', sc' ≠ sc → clear sc s !! scope_key sc' = s !! scope_key sc')
  ∧ (∀ k, k ≠ scope_key sc → clear sc s !! k = s !! k)
  ∧ (∀ w, scope w = sc → store w = s →
       clearAll true w = Returns (withNotes w [])
       ∧ store (withNotes w []) = clear sc s
       ∧ clearAll false w = Returns w).
Proof.
  unfold clear. split; [by rewrite lookup_insert_eq|].
  split.
  - intros sc' Hne. rewrite lookup_insert_ne; [done|].
    intros Heq. apply Hne. symmetry. by apply scope_key_inj.
  - split; [by intros k Hk; rewrite lookup_insert_ne|].
    by intros w <- <-.
Qed.

Lemma clear_scope_local_witness :
  week ≠ today
  ∧ clear today Sample.notes !! scope_key today = Some []
  ∧ clear today Sample.notes !! scope_key week = Some [Sample.exam]
  ∧ clearAll true Sample.widget = Returns (withNotes Sample.widget []).
Proof.
  destruct (clear_scope_local today Sample.notes) as (Hsc & Hother & _ & Hall).
  split; [discriminate|].
  split; [exact Hsc|].
  split; [rewrite (Hother week); [reflexivity | discriminate]|].
  destruct (Hall Sample.widget eq_refl eq_refl) as (Hrun & _). exact Hrun.
Defined.

(** C9. In a scope whose sequence is [l]:
    - for an id carried by no note of [l], [toggleDone] and [removeNote]
      return the component state unchanged, without error;
    - [toggleDone] keeps the length and, position by position, replaces a
      note carrying the id by the same note with [done] negated and leaves
      any other note as it is;
    - [removeNote] keeps, in order, exactly the notes that do not carry
      the id;
    - so when [l = l1 ++ n :: l2] with [n] the one note carrying the id,
      [toggleDone] yields [l1 ++ flipped n :: l2] and [removeNote] yields
      [l1 ++ l2].
    Both act on the selected scope only. *)
Theorem toggle_remove_by_id (i : string) (w : Widget) (l : list Note) :
  store w !! scope_key (scope w) = Some l →
  ∃ lt lr : list Note,
    toggleDone i w = Returns (withNotes w lt)
    ∧ removeNote i w = Returns (withNotes w lr)
    ∧ ((∀ n, n ∈ l → id n ≠ i) →
         toggleDone i w = Returns w ∧ removeNote i w = Returns w)
    ∧ length lt = length l
    ∧ (∀ (k : nat) n, l !! k = Some n →
         lt !! k = Some (if decide (id n = i) then flipped n else n))
    ∧ (∀ n, n ∈ lr ↔ n ∈ l ∧ id n ≠ i)
    ∧ lr `sublist_of` l
    ∧ (∀ l1 n l2, l = l1 ++ n :: l2 → id n = i →
         (∀ x, x ∈ l1 ++ l2 → id x ≠ i) →
         lt = l1 ++ flipped n :: l2 ∧ lr = l1 ++ l2).
Proof.
  intros Hl.
  exists (flipDone i <$> l), (filter (λ n, id n ≠ i) l).
  assert (Ht : toggleDone i w = Returns (withNotes w (flipDone i <$> l)))
    by (by apply setStore_update).
  assert (Hr : removeNote i w = Returns (withNotes w (filter (λ n, id n ≠ i) l)))
    by (by apply setStore_update).
  split; [exact Ht|]. split; [exact Hr|].
  split.
  { intros Habs. rewrite Ht, Hr, flipDone_absent, filter_absent by done.
    by rewrite withNotes_same. }
  split; [by rewrite length_fmap|].
  split.
  { intros k n Hk. by rewrite list_lookup_fmap, Hk. }
  split.
  { intros n. rewrite list_elem_of_filter. tauto. }
  split; [apply sublist_filter|].
  intros l1 n l2 -> Hn Huniq.
  assert (H1 : ∀ x, x ∈ l1 → id x ≠ i)
    by (intros x Hx; apply Huniq, elem_of_app; by left).
  assert (H2 : ∀ x, x ∈ l2 → id x ≠ i)
    by (intros x Hx; apply Huniq, elem_of_app; by right).
  split.
  - rewrite fmap_app, fmap_cons, !flipDone_absent by done.
    unfold flipDone at 1. by rewrite decide_True.
  - rewrite filter_app, filter_cons_False by (intros ?; done).
    by rewrite !filter_absent.
Qed.

Lemma toggle_remove_by_id_witness :
  store Sample.widget !! scope_key (scope Sample.widget)
    = Some [Sample.milk; Sample.essay]
  ∧ toggleDone "n2" Sample.widget
    = Returns (withNotes Sample.widget [Sample.milk; flipped Sample.essay])
  ∧ removeNote "n2" Sample.widget
    = Returns (withNotes Sample.widget [Sample.milk])
  ∧ toggleDone "zz" Sample.widget = Returns Sample.widget
  ∧ removeNote "zz" Sample.widget = Returns Sample.widget.
Proof.
  split; [reflexivity|].
  destruct (toggle_remove_by_id "n2" Sample.widget [Sample.milk; Sample.essay] eq_refl)
    as (lt & lr & Ht & Hr & _ & _ & _ & _ & _ & Hone).
  destruct (Hone [Sample.milk] Sample.essay [] eq_refl eq_refl) as [-> ->].
  { intros x Hx. apply list_elem_of_singleton in Hx as ->. discriminate. }
  split; [exact Ht|]. split; [exact Hr|].
  destruct (toggle_remove_by_id "zz" Sample.widget [Sample.milk; Sample.essay] eq_refl)
    as (_ & _ & _ & _ & Habs & _).
  apply Habs. intros n Hn.
  apply elem_of_cons in Hn as [->|Hn]; [discriminate|].
  apply list_elem_of_singleton in Hn as ->. discriminate.
Defined.

(** ** The reference parser inverts the reference printer *)
Module ReferenceFacts.
Import Reference.

Lemma append_cons (c : ascii) (a b : string) :
  String c a +:+ b = String c (a +:+ b).
Proof. reflexivity. Qed.

Lemma append_nil_l (b : string) : "" +:+ b = b.
Proof. reflexivity. Qed.

Lemma append_assoc (a b c : string) : (a +:+ b) +:+ c = a +:+ (b +:+ c).
Proof.
  induction a as [|x a IH]; [done|]. by rewrite !append_cons, IH.
Qed.

Lemma append_nil_r (a : string) : a +:+ "" = a.
Proof. induction a as [|x a IH]; [done|]. by rewrite append_cons, IH. Qed.

Lemma parseChars_escapeChar (c : ascii) (tail : string) :
  parseChars (escapeChar c +:+ tail)
  = '(str, r) ← parseChars tail; Some (String c str, r).
Proof.
  destruct c as [[] [] [] [] [] [] [] []]; reflexivity.
Qed.

Lemma parseChars_escape (s rest : string) :
  parseChars (escape s +:+ String dquote rest) = Some (s, rest).
Proof.
  induction s as [|c s IH]; [reflexivity|].
  change (escape (String c s)) with (escapeChar c +:+ escape s).
  rewrite append_assoc, parseChars_escapeChar, IH. reflexivity.
Qed.

Lemma quoteString_app (s rest : string) :
  quoteString s +:+ rest = String dquote (escape s +:+ String dquote rest).
Proof. unfold quoteString. by rewrite append_cons, append_assoc. Qed.

(** Numbers *)

Lemma digitValue_pretty_N_char (k : N) :
  (k < 10)%N → digitValue (pretty_N_char k) = Some (Z.of_N k).
Proof.
  intros Hk.
  assert (k = 0 ∨ k = 1 ∨ k = 2 ∨ k = 3 ∨ k = 4 ∨ k = 5 ∨ k = 6 ∨ k = 7
          ∨ k = 8 ∨ k = 9)%N as H by lia.
  repeat destruct H as [->|H]; try subst k; reflexivity.
Qed.

Lemma parseDigits_cons (acc d : Z) (c : ascii) (rest : string) :
  digitValue c = Some d →
  parseDigits acc (String c rest) = parseDigits (10 * acc + d) rest.
Proof. intros H. simpl. by rewrite H. Qed.

Lemma pretty_digits (x : N) :
  (0 < x)%N → ∀ s,
  ∃ c s' d, pretty_N_go x s = String c s'
    ∧ digitValue c = Some d ∧ d ≠ 0%Z
    ∧ parseDigits d s' = parseDigits (Z.of_N x) s.
Proof.
  induction (N.lt_wf_0 x) as [x _ IH]. intros Hx s.
  rewrite pretty_N_go_step by done.
  assert (Hm : (x `mod` 10 < 10)%N) by (apply N.mod_lt; lia).
  pose proof (N.div_mod x 10 ltac:(lia)) as Hdm.
  destruct (decide (x `div` 10 = 0)%N) as [Hz|Hnz].
  - rewrite Hz in *. rewrite pretty_N_go_0.
    assert (x `mod` 10 = x)%N as Hx' by lia.
    exists (pretty_N_char (x `mod` 10)), s, (Z.of_N x).
    split; [done|]. split; [by rewrite digitValue_pretty_N_char, Hx'|].
    split; [lia|done].
  - destruct (IH (x `div` 10)%N) with (s := String (pretty_N_char (x `mod` 10)) s)
      as (c & s' & d & Heq & Hd & Hd0 & Hparse).
    { apply N.div_lt; lia. }
    { lia. }
    exists c, s', d. split; [done|]. split; [done|]. split; [done|].
    rewrite Hparse.
    rewrite (parseDigits_cons _ (Z.of_N (x `mod` 10)))
      by (by apply digitValue_pretty_N_char).
    f_equal. lia.
Qed.

Lemma pretty_N_go_app (x : N) (s rest : string) :
  pretty_N_go x s +:+ rest = pretty_N_go x (s +:+ rest).
Proof.
  revert s. induction (N.lt_wf_0 x) as [x _ IH]. intros s.
  destruct (decide (x = 0)%N) as [->|Hx]; [by rewrite !pretty_N_go_0|].
  rewrite (pretty_N_go_step x s), (pretty_N_go_step x (s +:+ rest)) by lia.
  rewrite IH by (apply N.div_lt; lia). by rewrite append_cons.
Qed.

Lemma parseNatural_pretty (p : positive) (rest : string) :
  afterValue rest →
  parseNatural (pretty (Z.pos p) +:+ rest) = Some (Z.pos p, rest).
Proof.
  intros Hrest.
  change (pretty (Z.pos p)) with (pretty_N_go (N.pos p) "").
  rewrite pretty_N_go_app, append_nil_l.
  destruct (pretty_digits (N.pos p) ltac:(lia) rest)
    as (c & s' & d & -> & Hd & Hd0 & Hparse).
  unfold parseNatural. rewrite Hd, decide_False by done.
  rewrite Hparse.
  destruct rest as [|c' rest]; [reflexivity|].
  simpl in Hrest. destruct Hrest as [->|[->| ->]]; reflexivity.
Qed.

Lemma parseNatural_zero (rest : string) :
  afterValue rest → parseNatural ("0" +:+ rest) = Some (0%Z, rest).
Proof.
  intros Hrest. destruct rest as [|c' rest]; [reflexivity|].
  simpl in Hrest. destruct Hrest as [->|[->| ->]]; reflexivity.
Qed.

(** Structure *)

Lemma digit_is_plain (c : ascii) (d : Z) :
  digitValue c = Some d →
  isJsonSpace c = false ∧ c ≠ dquote ∧ c ≠ "n"%char ∧ c ≠ "t"%char
  ∧ c ≠ "f"%char ∧ c ≠ "-"%char ∧ c ≠ "["%char ∧ c ≠ "{"%char
  ∧ c ≠ "]"%char ∧ c ≠ "}"%char.
Proof.
  destruct c as [[] [] [] [] [] [] [] []]; intros H; try discriminate H;
    repeat split; discriminate.
Qed.

(** The first character of a printed value. *)
Lemma stringify_head (v : value) (rest : string) :
  ∃ c t, stringify v +:+ rest = String c t
    ∧ isJsonSpace c = false ∧ c ≠ "]"%char ∧ c ≠ "}"%char.
Proof.
  destruct v as [|[]|[[|p|p]| | |]|s|items|members];
    try (eexists _, _; split; [reflexivity|]; repeat split; discriminate).
  change (stringify (VNum (Z.pos p))) with (pretty_N_go (N.pos p) "").
  rewrite pretty_N_go_app.
  destruct (pretty_digits (N.pos p) ltac:(lia) ("" +:+ rest))
    as (c & s' & d & -> & Hd & _).
  apply digit_is_plain in Hd as (? & _ & _ & _ & _ & _ & _ & _ & ? & ?).
  by exists c, s'.
Qed.

Lemma skipSpace_plain (c : ascii) (t : string) :
  isJsonSpace c = false → skipSpace (String c t) = String c t.
Proof. intros H. simpl. by rewrite H. Qed.

Lemma parseValue_digit (c : ascii) (d : Z) (t : string) (fuel : nat) :
  digitValue c = Some d →
  parseValue (S fuel) (String c t)
  = '(n, r) ← parseNatural (String c t); Some (VNum (Integer n), r).
Proof.
  intros Hd.
  apply digit_is_plain in Hd as (Hsp & ? & ? & ? & ? & ? & ? & ? & _).
  simpl. rewrite Hsp. by rewrite !decide_False by done.
Qed.

Lemma parseValue_atom_null : ReadsBack VNull.
Proof. intros rest [|fuel] _ Hf; [simpl in Hf; lia|]. reflexivity. Qed.

Lemma parseValue_atom_bool b : ReadsBack (VBool b).
Proof. intros rest [|fuel] _ Hf; [simpl in Hf; lia|]. by destruct b. Qed.

Lemma parseValue_atom_str s : ReadsBack (VStr s).
Proof.
  intros rest [|fuel] _ Hf; [simpl in Hf; lia|].
  change (stringify (VStr s)) with (quoteString s).
  rewrite quoteString_app.
  change (parseValue (S fuel) (String dquote (escape s +:+ String dquote rest)))
    with ('(str, r) ← parseChars (escape s +:+ String dquote rest); Some (VStr str, r)).
  by rewrite parseChars_escape.
Qed.

Lemma parseValue_atom_num (n : Z) : ReadsBack (VNum n).
Proof.
  intros rest [|fuel] Hrest Hf; [simpl in Hf; lia|].
  destruct n as [|p|p].
  - change (parseValue (S fuel) (stringify (VNum 0) +:+ rest))
      with ('(n, r) ← parseNatural ("0" +:+ rest); Some (VNum (Integer n), r)).
    by rewrite parseNatural_zero.
  - pose proof (parseNatural_pretty p rest Hrest) as Hnat.
    change (stringify (VNum (Z.pos p))) with (pretty (Z.pos p)).
    revert Hnat.
    change (pretty (Z.pos p)) with (pretty_N_go (N.pos p) "").
    rewrite pretty_N_go_app.
    destruct (pretty_digits (N.pos p) ltac:(lia) ("" +:+ rest))
      as (c & s' & d & -> & Hd & _).
    intros Hnat. by rewrite (parseValue_digit _ _ _ _ Hd), Hnat.
  - change (parseValue (S fuel) (stringify (VNum (Z.neg p)) +:+ rest))
      with ('(n, r) ← parseNatural (pretty (Z.pos p) +:+ rest);
            Some (VNum (Integer (- n)), r)).
    by rewrite parseNatural_pretty.
Qed.

Lemma parseValue_array (fuel : nat) (rest : string) :
  parseValue (S fuel) (String "[" rest)
  = match skipSpace rest with
    | EmptyString => None
    | String c r =>
        if decide (c = "]"%char) then Some (VArr [], r)
        else '(items, r') ← parseElements fuel rest; Some (VArr items, r')
    end.
Proof. reflexivity. Qed.

Lemma parseValue_object (fuel : nat) (rest : string) :
  parseValue (S fuel) (String "{" rest)
  = match skipSpace rest with
    | EmptyString => None
    | String c r =>
        if decide (c = "}"%char) then Some (VObj [], r)
        else '(members, r') ← parseMembers fuel rest; Some (VObj members, r')
    end.
Proof. reflexivity. Qed.

Lemma parseElements_step (fuel : nat) (s : string) :
  parseElements (S fuel) s
  = '(v, r) ← parseValue fuel s;
    match skipSpace r with
    | EmptyString => None
    | String c r' =>
        if decide (c = ","%char) then
          '(vs, r'') ← parseElements fuel r'; Some (v :: vs, r'')
        else if decide (c = "]"%char) then Some ([v], r')
        else None
    end.
Proof. reflexivity. Qed.

Lemma parseMembers_step (fuel : nat) (s : string) :
  parseMembers (S fuel) (String dquote s)
  = '(k, r) ← parseChars s;
    match skipSpace r with
    | EmptyString => None
    | String c1 r1 =>
        if decide (c1 = ":"%char) then
          '(v, r2) ← parseValue fuel r1;
          match skipSpace r2 with
          | EmptyString => None
          | String c2 r3 =>
              if decide (c2 = ","%char) then
                '(ms, r4) ← parseMembers fuel r3; Some ((k, v) :: ms, r4)
              else if decide (c2 = "}"%char) then Some ([(k, v)], r3)
              else None
          end
        else None
    end.
Proof. reflexivity. Qed.

Lemma joinWith_cons2 {A} (f : A → string) (x y : A) (l : list A) :
  joinWith f (x :: y :: l) = f x +:+ "," +:+ joinWith f (y :: l).
Proof. reflexivity. Qed.

Lemma parseElements_join (items : list value) :
  Forall ReadsBack items → items ≠ [] →
  ∀ rest fuel, needElements items ≤ fuel →
    parseElements fuel (joinWith stringify items +:+ String "]" rest)
    = Some (items, rest).
Proof.
  induction 1 as [|x l Hx _ IH]; [done|]. intros _ rest fuel Hf.
  destruct fuel as [|fuel]; [simpl in Hf; lia|].
  change (needElements (x :: l)) with (S (max (need x) (needElements l))) in Hf.
  rewrite parseElements_step.
  destruct l as [|y l].
  - change (joinWith stringify [x]) with (stringify x).
    rewrite Hx; [reflexivity | by right; left | lia].
  - rewrite joinWith_cons2, !append_assoc.
    change ("," +:+ ?t) with (String ","%char t).
    rewrite Hx; [|by left | lia]. simpl.
    rewrite IH; [reflexivity | done | lia].
Qed.

Lemma parseMembers_join (members : list (string * value)) :
  Forall (λ kv, ReadsBack kv.2) members → members ≠ [] →
  ∀ rest fuel, needMembers members ≤ fuel →
    parseMembers fuel (joinWith member members +:+ String "}" rest)
    = Some (members, rest).
Proof.
  induction 1 as [|[k x] l Hx _ IH]; [done|]. intros _ rest fuel Hf.
  destruct fuel as [|fuel]; [simpl in Hf; lia|].
  change (needMembers ((k, x) :: l)) with (S (max (need x) (needMembers l))) in Hf.
  simpl in Hx.
  destruct l as [|y l].
  - change (joinWith member [(k, x)]) with (quoteString k +:+ ":" +:+ stringify x).
    rewrite !append_assoc, quoteString_app, parseMembers_step.
    rewrite parseChars_escape. simpl. rewrite append_nil_l.
    rewrite Hx; [reflexivity | by right; right | lia].
  - rewrite joinWith_cons2.
    change (member (k, x)) with (quoteString k +:+ ":" +:+ stringify x).
    rewrite !append_assoc, quoteString_app, parseMembers_step.
    rewrite parseChars_escape. simpl. rewrite append_nil_l.
    change ("," +:+ ?t) with (String ","%char t).
    rewrite Hx; [|by left | lia]. simpl.
    rewrite IH; [reflexivity | done | lia].
Qed.

Lemma joinWith_head {A} (f : A → string) (x : A) (l : list A) (rest : string) :
  ∃ tail, joinWith f (x :: l) +:+ rest = f x +:+ tail.
Proof.
  destruct l as [|y l].
  - by exists rest.
  - exists ("," +:+ joinWith f (y :: l) +:+ rest).
    by rewrite joinWith_cons2, !append_assoc.
Qed.

Lemma finiteValue_items (items : list value) :
  finiteValue (VArr items) = true → Forall (λ x, finiteValue x = true) items.
Proof.
  simpl. induction items as [|x l IH]; simpl; [constructor|].
  intros H. apply andb_prop in H as [? ?]. constructor; auto.
Qed.

Lemma finiteValue_members (members : list (string * value)) :
  finiteValue (VObj members) = true →
  Forall (λ kv, finiteValue kv.2 = true) members.
Proof.
  simpl. induction members as [|x l IH]; simpl; [constructor|].
  intros H. apply andb_prop in H as [? ?]. constructor; auto.
Qed.

Lemma readsBack (v : value) : finiteValue v = true → ReadsBack v.
Proof.
  induction v as [|b|n|s|items IH|members IH] using value_nested_ind; intros Hfin.
  - apply parseValue_atom_null.
  - apply parseValue_atom_bool.
  - destruct n; try discriminate Hfin. apply parseValue_atom_num.
  - apply parseValue_atom_str.
  - apply finiteValue_items in Hfin.
    assert (IH' : Forall ReadsBack items).
    { clear -IH Hfin. induction IH as [|x l Hx _ IHl]; [constructor|].
      apply Forall_cons in Hfin as [? ?]. constructor; auto. }
    clear IH Hfin. rename IH' into IH.
    intros rest [|fuel] Hrest Hf; [simpl in Hf; lia|].
    change (need (VArr items)) with (S (needElements items)) in Hf.
    change (stringify (VArr items)) with ("[" +:+ joinWith stringify items +:+ "]").
    rewrite !append_assoc.
    change (parseValue (S fuel) ("[" +:+ ?t)) with (parseValue (S fuel) (String "[" t)).
    change ("]" +:+ rest) with (String "]" rest).
    rewrite parseValue_array.
    destruct items as [|x l]; [reflexivity|].
    destruct (joinWith_head stringify x l (String "]" rest)) as [tail Htail].
    destruct (stringify_head x tail) as (c & t & Hc & Hsp & Hb & _).
    assert (Hskip : skipSpace (joinWith stringify (x :: l) +:+ String "]" rest)
                    = String c t)
      by (rewrite Htail, Hc; by apply skipSpace_plain).
    rewrite Hskip, decide_False by done.
    rewrite parseElements_join; [reflexivity | done | done | lia].
  - apply finiteValue_members in Hfin.
    assert (IH' : Forall (λ kv, ReadsBack kv.2) members).
    { clear -IH Hfin. induction IH as [|x l Hx _ IHl]; [constructor|].
      apply Forall_cons in Hfin as [? ?]. constructor; auto. }
    clear IH Hfin. rename IH' into IH.
    intros rest [|fuel] Hrest Hf; [simpl in Hf; lia|].
    change (need (VObj members)) with (S (needMembers members)) in Hf.
    change (stringify (VObj members)) with ("{" +:+ joinWith member members +:+ "}").
    rewrite !append_assoc.
    change (parseValue (S fuel) ("{" +:+ ?t)) with (parseValue (S fuel) (String "{" t)).
    change ("}" +:+ rest) with (String "}" rest).
    rewrite parseValue_object.
    destruct members as [|[k x] l]; [reflexivity|].
    destruct (joinWith_head member (k, x) l (String "}" rest)) as [tail Htail].
    assert (Hskip : skipSpace (joinWith member ((k, x) :: l) +:+ String "}" rest)
                    = String dquote (escape k +:+ String dquote (":" +:+ stringify x +:+ tail))).
    { rewrite Htail.
      change (member (k, x)) with (quoteString k +:+ ":" +:+ stringify x).
      by rewrite !append_assoc, quoteString_app. }
    rewrite Hskip, decide_False by done.
    rewrite parseMembers_join; [reflexivity | done | done | lia].
Qed.

Lemma length_append (a b : string) :
  String.length (a +:+ b) = (String.length a + String.length b)%nat.
Proof. induction a as [|c a IH]; [done|]. rewrite append_cons. simpl. by rewrite IH. Qed.

Lemma stringify_nonempty (v : value) : 1 ≤ String.length (stringify v).
Proof.
  destruct (stringify_head v "") as (c & t & H & _).
  rewrite append_nil_r in H. rewrite H. simpl. lia.
Qed.

Lemma need_bound (v : value) : need v ≤ 2 * String.length (stringify v).
Proof.
  induction v as [|b|n|s|items IH|members IH] using value_nested_ind.
  - pose proof (stringify_nonempty VNull). simpl need. lia.
  - pose proof (stringify_nonempty (VBool b)). simpl need. lia.
  - pose proof (stringify_nonempty (VNum n)). simpl need. lia.
  - pose proof (stringify_nonempty (VStr s)). simpl need. lia.
  - change (need (VArr items)) with (S (needElements items)).
    change (stringify (VArr items)) with ("[" +:+ joinWith stringify items +:+ "]").
    rewrite !length_append. simpl String.length.
    assert (needElements items ≤ 2 * String.length (joinWith stringify items) + 1);
      [|lia].
    induction IH as [|x l Hx _ IHl]; [simpl; lia|].
    change (needElements (x :: l)) with (S (max (need x) (needElements l))).
    destruct l as [|y l].
    + change (joinWith stringify [x]) with (stringify x).
      change (needElements []) with 0%nat. lia.
    + rewrite joinWith_cons2, !length_append.
      change (String.length ",") with 1%nat. lia.
  - change (need (VObj members)) with (S (needMembers members)).
    change (stringify (VObj members)) with ("{" +:+ joinWith member members +:+ "}").
    rewrite !length_append. simpl String.length.
    assert (needMembers members ≤ 2 * String.length (joinWith member members) + 1);
      [|lia].
    induction IH as [|[k x] l Hx _ IHl]; [simpl; lia|].
    change (needMembers ((k, x) :: l)) with (S (max (need x) (needMembers l))).
    simpl in Hx.
    assert (String.length (stringify x) ≤ String.length (member (k, x))).
    { change (member (k, x)) with (quoteString k +:+ ":" +:+ stringify x).
      rewrite !length_append. lia. }
    destruct l as [|y l].
    + change (joinWith member [(k, x)]) with (member (k, x)).
      change (needMembers []) with 0%nat. lia.
    + rewrite joinWith_cons2, !length_append.
      change (String.length ",") with 1%nat. lia.
Qed.

(** The reference parser reads back whatever the reference printer
    writes for a value whose numbers are finite. *)
Lemma parse_stringify (v : value) :
  finiteValue v = true → parse (stringify v) = Returns v.
Proof.
  intros Hfin. unfold parse.
  assert (H : parseValue (2 * String.length (stringify v) + 2) (stringify v)
              = Some (v, "")).
  { rewrite <- (append_nil_r (stringify v)) at 2.
    apply readsBack; [done|done|]. pose proof (need_bound v). lia. }
  by rewrite H.
Qed.

Lemma stringify_not_blank (v : value) : stringify v ≠ "".
Proof.
  pose proof (stringify_nonempty v) as H. intros Heq. rewrite Heq in H.
  simpl in H. lia.
Qed.

End ReferenceFacts.

(** ** Persistence *)

Lemma own_props_object_value (o : gmap string value) :
  own_props (object_value o) = o.
Proof.
  unfold own_props, object_value.
  rewrite (list_to_map_proper _ (map_to_list o)).
  - apply list_to_map_to_list.
  - rewrite reverse_Permutation. apply NoDup_fst_map_to_list.
  - apply reverse_Permutation.
Qed.

Lemma emptyStore_lookup (sc : Scope) : emptyStore !! scope_key sc = Some [].
Proof. by destruct sc. Qed.

Lemma empty_object_lookup (sc : Scope) :
  store_object emptyStore !! scope_key sc = Some (VArr []).
Proof. unfold store_object. by rewrite lookup_fmap, emptyStore_lookup. Qed.

Lemma AllScopes_emptyStore : AllScopes emptyStore.
Proof. intros sc. rewrite emptyStore_lookup. by eexists. Qed.

Lemma AllScopes_store_object (s : Store) :
  AllScopes (store_object s) ↔ AllScopes s.
Proof.
  unfold AllScopes, store_object.
  split; intros H sc; specialize (H sc); rewrite lookup_fmap in *;
    by rewrite fmap_is_Some in *.
Qed.

Section PersistenceFacts.
Context {json : JSON}.

Lemma loadStore_blocked : loadStore Blocked = Returns (store_object emptyStore).
Proof. reflexivity. Qed.

Lemma loadStore_missing (m : gmap string string) :
  m !! LS_KEY = None → loadStore (Items m) = Returns (store_object emptyStore).
Proof. intros H. unfold loadStore; simpl. by rewrite H. Qed.

Lemma loadStore_blank (m : gmap string string) :
  m !! LS_KEY = Some "" → loadStore (Items m) = Returns (store_object emptyStore).
Proof. intros H. unfold loadStore; simpl. by rewrite H. Qed.

Lemma loadStore_unparsable (m : gmap string string) raw e :
  m !! LS_KEY = Some raw → JSON_parse raw = Throws e →
  loadStore (Items m) = Returns (store_object emptyStore).
Proof.
  intros H Hp. unfold loadStore; simpl. rewrite H.
  destruct raw; [done|]. by rewrite Hp.
Qed.

Lemma loadStore_parsed (m : gmap string string) raw parsed :
  m !! LS_KEY = Some raw → raw ≠ "" → JSON_parse raw = Returns parsed →
  loadStore (Items m) = Returns (own_props parsed ∪ store_object emptyStore).
Proof.
  intros H Hne Hp. unfold loadStore; simpl. rewrite H.
  destruct raw; [done|]. by rewrite Hp.
Qed.

(** The two shapes a loaded collection can take. *)
Lemma loadStore_cases (ls : LocalStorage) :
  loadStore ls = Returns (store_object emptyStore)
  ∨ ∃ m raw parsed,
      ls = Items m ∧ m !! LS_KEY = Some raw ∧ raw ≠ ""
      ∧ JSON_parse raw = Returns parsed
      ∧ loadStore ls = Returns (own_props parsed ∪ store_object emptyStore).
Proof.
  destruct ls as [|m]; [by left|].
  destruct (m !! LS_KEY) as [raw|] eqn:Hraw; [|left; by apply loadStore_missing].
  destruct (decide (raw = "")) as [->|Hne]; [left; by apply loadStore_blank|].
  destruct (JSON_parse raw) as [parsed|e] eqn:Hp.
  - right. exists m, raw, parsed.
    repeat split; try done. by eapply loadStore_parsed.
  - left. by eapply loadStore_unparsable.
Qed.

End PersistenceFacts.

(** C3, as the code has it. Loading never throws.  When storage cannot be
    read, the key is missing or blank, or the blob does not parse, the
    result is the default collection, whose five scopes are empty
    sequences.  When the blob parses, a scope that is absent from the
    parsed value is bound to the empty sequence, and a scope that is
    present is taken over with the value the blob gives it, whatever that
    value is. *)
Theorem loadStore_fallback_and_defaults {json : JSON} (ls : LocalStorage) :
  (∃ o, loadStore ls = Returns o)
  ∧ (∀ sc, store_object emptyStore !! scope_key sc = Some (VArr []))
  ∧ (ls = Blocked → loadStore ls = Returns (store_object emptyStore))
  ∧ (∀ m, ls = Items m → m !! LS_KEY = None ∨ m !! LS_KEY = Some "" →
       loadStore ls = Returns (store_object emptyStore))
  ∧ (∀ m raw e, ls = Items m → m !! LS_KEY = Some raw →
       JSON_parse raw = Throws e →
       loadStore ls = Returns (store_object emptyStore))
  ∧ (∀ m raw parsed, ls = Items m → m !! LS_KEY = Some raw → raw ≠ "" →
       JSON_parse raw = Returns parsed →
       ∃ o, loadStore ls = Returns o
         ∧ ∀ sc,
             (own_props parsed !! scope_key sc = None →
                o !! scope_key sc = Some (VArr []))
             ∧ (∀ v, own_props parsed !! scope_key sc = Some v →
                  o !! scope_key sc = Some v)).
Proof.
  split.
  { destruct (loadStore_cases ls) as [H|(?&?&?&_&_&_&_&H)]; eauto. }
  split; [apply empty_object_lookup|].
  split; [by intros ->|].
  split.
  { intros m -> [H|H]; [by apply loadStore_missing | by apply loadStore_blank]. }
  split.
  { intros m raw e -> H Hp. by eapply loadStore_unparsable. }
  intros m raw parsed -> H Hne Hp.
  eexists. split; [by eapply loadStore_parsed|].
  intros sc. split.
  - intros Hnone. by rewrite lookup_union_r, empty_object_lookup.
  - intros v Hv. by erewrite lookup_union_Some_l.
Qed.

Lemma loadStore_fallback_and_defaults_witness :
  ({[ LS_KEY := Sample.weekOnlyBlob ]} : gmap string string) !! LS_KEY
    = Some Sample.weekOnlyBlob
  ∧ Sample.weekOnlyBlob ≠ ""
  ∧ @JSON_parse reference_json Sample.weekOnlyBlob
    = Returns (object_value (store_object {[ "week" := [Sample.exam] ]}))
  ∧ ∃ o, @loadStore reference_json (Items {[ LS_KEY := Sample.weekOnlyBlob ]})
         = Returns o
      ∧ o !! scope_key today = Some (VArr [])
      ∧ o !! scope_key week = Some (notes_value [Sample.exam]).
Proof.
  set (json := reference_json).
  set (m := ({[ LS_KEY := Sample.weekOnlyBlob ]} : gmap string string)).
  assert (Hm : m !! LS_KEY = Some Sample.weekOnlyBlob) by reflexivity.
  assert (Hne : Sample.weekOnlyBlob ≠ "") by discriminate.
  assert (Hp : JSON_parse Sample.weekOnlyBlob
               = Returns (object_value (store_object {[ "week" := [Sample.exam] ]})))
    by (vm_compute; reflexivity).
  split; [exact Hm|]. split; [exact Hne|]. split; [exact Hp|].
  destruct (loadStore_fallback_and_defaults (Items m)) as (_ & _ & _ & _ & _ & Hparsed).
  destruct (Hparsed m _ _ eq_refl Hm Hne Hp) as (o & Hrun & Hsc).
  exists o. split; [exact Hrun|]. split.
  - apply (proj1 (Hsc today)). rewrite own_props_object_value. reflexivity.
  - apply (proj2 (Hsc week)). rewrite own_props_object_value. reflexivity.
Defined.

(** C3, counterexample to the claim as written: the blob [{"today":42}]
    parses, its [today] member is not an array, and the loaded collection
    binds [today] to the number 42, not to the empty sequence. *)
Lemma loadStore_keeps_malformed_scope :
  @JSON_parse reference_json Sample.malformedBlob
    = Returns (VObj [("today", VNum 42)])
  ∧ is_array (VNum 42) = false
  ∧ ∃ o, @loadStore reference_json (Items {[ LS_KEY := Sample.malformedBlob ]})
         = Returns o
      ∧ o !! scope_key today = Some (VNum 42)
      ∧ o !! scope_key today ≠ Some (VArr []).
Proof.
  assert (Hp : @JSON_parse reference_json Sample.malformedBlob
               = Returns (VObj [("today", VNum 42)]))
    by (vm_compute; reflexivity).
  split; [exact Hp|]. split; [reflexivity|].
  eexists. split.
  { apply (@loadStore_parsed reference_json _ Sample.malformedBlob);
      [apply lookup_singleton_eq | discriminate | exact Hp]. }
  rewrite (lookup_union_Some_l _ _ _ (VNum 42)) by reflexivity.
  split; [reflexivity | discriminate].
Qed.

(** Save then load, for any implementation of the JSON interface that
    reads the document of [c] back from its own, non-empty, text. *)
Lemma loadStore_after_save {json : JSON} (c : Store) (m : gmap string string) :
  JSON_stringify (object_value (store_object c)) ≠ "" →
  JSON_parse (JSON_stringify (object_value (store_object c)))
    = Returns (object_value (store_object c)) →
  ∃ ls, saveStore c (Items m) = Returns ls
      ∧ loadStore ls = Returns (store_object (c ∪ emptyStore))
      ∧ (AllScopes c → loadStore ls = Returns (store_object c)).
Proof.
  intros Hne Hp.
  exists (Items (<[LS_KEY := JSON_stringify (object_value (store_object c))]> m)).
  split; [reflexivity|].
  assert (Hload : loadStore (Items (<[LS_KEY := JSON_stringify (object_value (store_object c))]> m))
                  = Returns (store_object (c ∪ emptyStore))).
  { erewrite loadStore_parsed; [|apply lookup_insert_eq|exact Hne|exact Hp].
    rewrite own_props_object_value. unfold store_object.
    by rewrite map_fmap_union. }
  split; [exact Hload|].
  intros Hall. rewrite Hload. do 2 f_equal.
  apply map_eq. intros k. destruct (c !! k) as [l|] eqn:Hk.
  - by rewrite (lookup_union_Some_l _ _ _ _ Hk).
  - rewrite lookup_union_r by done.
    destruct (emptyStore !! k) as [l|] eqn:He; [|done].
    assert (∃ sc, k = scope_key sc) as [sc ->].
    { unfold emptyStore in He.
      repeat (apply lookup_insert_Some in He as [[<- _]|[_ He]];
              [by (eexists today + eexists week + eexists month
                   + eexists semester + eexists year)|]).
      by rewrite lookup_empty in He. }
    destruct (Hall sc) as [? ?]. congruence.
Qed.

Lemma forallb_true {A} (f : A → bool) (l : list A) :
  (∀ x, x ∈ l → f x = true) → forallb f l = true.
Proof.
  induction l as [|x l IH]; intros H; simpl; [done|].
  rewrite (H x) by (by left). apply IH. intros y Hy. apply H. by right.
Qed.

(** The document of a well-formed collection holds finite numbers only. *)
Lemma wellFormed_finite (c : Store) :
  wellFormed c → finiteValue (object_value (store_object c)) = true.
Proof.
  intros Hwf. unfold object_value. simpl. apply forallb_true.
  intros [k v] Hkv. apply elem_of_map_to_list in Hkv.
  unfold store_object in Hkv. rewrite lookup_fmap in Hkv.
  destruct (c !! k) as [l|] eqn:Hl; [|done]. injection Hkv as <-.
  simpl. apply forallb_true. intros x Hx.
  apply list_elem_of_fmap in Hx as (n & -> & Hn).
  destruct (Hwf k l n Hl Hn) as [[i Hi] [z Hz]].
  simpl. by rewrite Hi, Hz.
Qed.




(** ** Optimistic create *)

Lemma prefix_app (s t : string) : String.prefix s (s +:+ t) = true.
Proof.
  induction s as [|a s IH]; simpl.
  - by destruct t.
  - by destruct (ascii_dec a a).
Qed.

Lemma tempIdOf_prefix (env : Env) : String.prefix "tmp-" (tempIdOf env) = true.
Proof. apply prefix_app. Qed.

Section SyncFacts.
Context {json : JSON}.

(** [addNote] on a non-blank text, in a scope whose sequence is [l]. *)
Lemma addNote_run (env : Env) (w : Widget) (l : list Note) :
  trim (input w) ≠ "" →
  store w !! scope_key (scope w) = Some l →
  addNote env w =
    let txt := trim (input w) in
    let opt := optimisticNote env txt in
    match awaitCreate env with
    | Returns data =>
        if truthyValue (data_id data)
        then Returns
               (afterSubmit w
                  (withId (tempIdOf env) (default VNull (data_id data)) <$> (opt :: l)),
                [createRequest (scope w) txt])
        else Returns (afterSubmit w (opt :: l), [createRequest (scope w) txt])
    | Throws err =>
        Returns
          (afterSubmit w (filter (λ n, id n ≠ tempIdOf env) (opt :: l)),
           [createRequest (scope w) txt; ConsoleError err; Alert failureNotice])
    end.
Proof.
  intros Htxt Hl. unfold addNote. rewrite decide_False by done.
  unfold insertNote. rewrite (setStore_update _ _ _ _ Hl). simpl.
  set (opt := optimisticNote env (trim (input w))).
  set (w2 := setInput "" _).
  assert (Hw2 : store w2 !! scope_key (scope w) = Some (opt :: l))
    by (simpl; apply lookup_insert_eq).
  destruct (awaitCreate env) as [data|err]; simpl.
  - destruct (truthyValue (data_id data)); simpl; [|done].
    unfold replaceIdentifier. rewrite (setStore_update _ _ _ _ Hw2). simpl.
    unfold afterSubmit. by rewrite insert_insert_eq.
  - unfold remove. rewrite (setStore_update _ _ _ _ Hw2). simpl.
    unfold afterSubmit. by rewrite insert_insert_eq.
Qed.

Lemma createFails_await (env : Env) (err : exn) :
  createFails env err → awaitCreate env = Throws err.
Proof.
  unfold awaitCreate.
  intros [->|[(r & -> & Hok & ->)|(r & -> & Hok & Hbody)]]; simpl.
  - done.
  - by rewrite Hok.
  - by rewrite Hok.
Qed.

End SyncFacts.

(** C7. When the composer text trims to the empty string, [addNote]
    returns the component state as it was and performs no effect at all, so
    no request is sent. *)
Theorem addNote_rejects_blank {json : JSON} (env : Env) (w : Widget) :
  trim (input w) = "" → addNote env w = Returns (w, []).
Proof. intros H. unfold addNote. by rewrite decide_True. Qed.

Lemma addNote_rejects_blank_witness :
  trim (input Sample.blankWidget) = ""
  ∧ @addNote reference_json Sample.offline Sample.blankWidget
    = Returns (Sample.blankWidget, []).
Proof.
  split; [reflexivity|].
  apply (@addNote_rejects_blank reference_json). reflexivity.
Defined.

(** C1, as the code has it. For a text that is not blank after trimming,
    in a scope whose sequence is [l], when the remote create fails (a
    transport fault, a non-success status or a body that is not JSON) and
    no note of [l] already carries the provisional id of this call, then
    [addNote] ends with the collection exactly as it was before the call:
    only the composer has been cleared.  One request was sent, and the
    failure is logged and reported by one alert. *)
Theorem addNote_rolls_back {json : JSON}
    (env : Env) (w : Widget) (l : list Note) (err : exn) :
  trim (input w) ≠ "" →
  store w !! scope_key (scope w) = Some l →
  (∀ n, n ∈ l → id n ≠ tempIdOf env) →
  createFails env err →
  ∃ w', addNote env w
        = Returns (w', [createRequest (scope w) (trim (input w));
                        ConsoleError err; Alert failureNotice])
      ∧ store w' = store w
      ∧ scope w' = scope w
      ∧ input w' = "".
Proof.
  intros Htxt Hl Hfresh Hfail.
  rewrite (addNote_run env w l Htxt Hl). simpl.
  rewrite (createFails_await env err Hfail).
  eexists. split; [reflexivity|]. simpl.
  split; [|done].
  rewrite filter_cons_False by (intros H; by apply H).
  rewrite filter_absent by done. by apply insert_id.
Qed.

Lemma addNote_rolls_back_witness :
  trim (input Sample.widget) ≠ ""
  ∧ store Sample.widget !! scope_key (scope Sample.widget)
    = Some [Sample.milk; Sample.essay]
  ∧ createFails Sample.offline NetworkError
  ∧ ∃ w', @addNote reference_json Sample.offline Sample.widget
          = Returns (w', [@createRequest reference_json today "Call home";
                          ConsoleError NetworkError; Alert failureNotice])
      ∧ store w' = store Sample.widget.
Proof.
  assert (Htxt : trim (input Sample.widget) ≠ "") by (vm_compute; discriminate).
  assert (Hfail : createFails Sample.offline NetworkError) by (left; reflexivity).
  split; [exact Htxt|]. split; [reflexivity|]. split; [exact Hfail|].
  destruct (@addNote_rolls_back reference_json Sample.offline Sample.widget
              [Sample.milk; Sample.essay] NetworkError Htxt eq_refl)
    as (w' & Hrun & Hstore & _).
  - intros n Hn. apply elem_of_cons in Hn as [->|Hn]; [vm_compute; discriminate|].
    apply list_elem_of_singleton in Hn as ->. vm_compute; discriminate.
  - exact Hfail.
  - exists w'. split; [exact Hrun | exact Hstore].
Defined.

(** C1, counterexample to the claim as written: the scope already holds a
    note whose id is the provisional id this call generates
    ([tmp-1762146000000-c4e1a], from the clock reading and the random
    digits);
    the request fails, the rollback filters by id, and the older note is
    removed together with the optimistic one. *)
Lemma addNote_rollback_drops_clashing_note :
  trim (input Sample.clashWidget) = "Buy milk"
  ∧ store Sample.clashWidget !! scope_key today = Some [Sample.clash]
  ∧ VStr (tempIdOf Sample.offline) = id Sample.clash
  ∧ ∃ w' effects,
      @addNote reference_json Sample.offline Sample.clashWidget
      = Returns (w', effects)
      ∧ store w' !! scope_key today = Some []
      ∧ store w' ≠ store Sample.clashWidget.
Proof.
  split; [reflexivity|]. split; [reflexivity|]. split; [reflexivity|].
  eexists _, _. split; [vm_compute; reflexivity|].
  split; [reflexivity|].
  intros H. apply (f_equal (λ s : Store, s !! scope_key today)) in H.
  vm_compute in H. discriminate.
Qed.

(** C2. With the [today] scope selected and empty and the composer holding
    [Buy milk] (up to surrounding white space), when the request succeeds
    and its body carries the id [srv-1], [addNote] ends with [today]
    holding exactly one note: id [srv-1], text [Buy milk], not done.  The
    other keys of the collection are untouched. *)
Theorem addNote_confirms_canonical_id {json : JSON}
    (env : Env) (w : Widget) (code : Z) (data : value) :
  scope w = today →
  trim (input w) = "Buy milk" →
  store w !! scope_key today = Some [] →
  fetched env = Returns (mkResponse true code (Returns data)) →
  data_id data = Some (VStr "srv-1") →
  ∃ w' effects,
    addNote env w = Returns (w', effects)
    ∧ store w' !! scope_key today
      = Some [mkNote "srv-1" "Buy milk" (now_created env) false]
    ∧ (∀ k, k ≠ scope_key today → store w' !! k = store w !! k)
    ∧ effects = [createRequest today "Buy milk"].
Proof.
  intros Hsc Htxt Hl Hresp Hid.
  assert (Hne : trim (input w) ≠ "") by (rewrite Htxt; discriminate).
  rewrite <- Hsc in Hl.
  rewrite (addNote_run env w [] Hne Hl). simpl.
  unfold awaitCreate. rewrite Hresp. simpl. rewrite Hid. simpl.
  eexists _, _. split; [reflexivity|]. simpl. rewrite Hsc, Htxt.
  split.
  - rewrite lookup_insert_eq. unfold withId, optimisticNote. simpl.
    by rewrite decide_True.
  - split; [|done]. intros k Hk. by rewrite lookup_insert_ne.
Qed.

Lemma addNote_confirms_canonical_id_witness :
  scope Sample.milkWidget = today
  ∧ trim (input Sample.milkWidget) = "Buy milk"
  ∧ store Sample.milkWidget !! scope_key today = Some []
  ∧ ∃ w' effects,
      @addNote reference_json (Sample.created (Some (VStr "srv-1"))) Sample.milkWidget
      = Returns (w', effects)
      ∧ store w' !! scope_key today = Some [mkNote "srv-1" "Buy milk" 1762146000001 false].
Proof.
  split; [reflexivity|]. split; [reflexivity|]. split; [reflexivity|].
  destruct (@addNote_confirms_canonical_id reference_json
              (Sample.created (Some (VStr "srv-1"))) Sample.milkWidget 201
              (VObj [("id", VStr "srv-1")])
              eq_refl eq_refl eq_refl eq_refl eq_refl)
    as (w' & effects & Hrun & Htoday & _).
  exists w', effects. split; [exact Hrun | exact Htoday].
Defined.

(** C10, as the code has it. After a successful response, for a text that
    is not blank, in a scope whose sequence is [l]: the provisional id
    starts with [tmp-]; when the returned id is the empty string, or there
    is none, the outcome is the same, namely the optimistic note stays at
    the head of the scope under its provisional id and nothing else
    changes; and so it is whenever the returned id is not truthy ([null],
    [false], [0], [NaN]).  Whenever the returned id is truthy the
    reconciliation is applied with it: for a string that means a non-empty
    one, but the id need not be a string. *)
Theorem addNote_blank_id_as_omitted {json : JSON}
    (env : Env) (w : Widget) (l : list Note) (code : Z) (data : value) :
  trim (input w) ≠ "" →
  store w !! scope_key (scope w) = Some l →
  fetched env = Returns (mkResponse true code (Returns data)) →
  String.prefix "tmp-" (tempIdOf env) = true
  ∧ id (optimisticNote env (trim (input w))) = VStr (tempIdOf env)
  ∧ (data_id data = Some (VStr "") ∨ data_id data = None →
       addNote env w
       = Returns (afterSubmit w (optimisticNote env (trim (input w)) :: l),
                  [createRequest (scope w) (trim (input w))]))
  ∧ (truthyValue (data_id data) = false →
       addNote env w
       = Returns (afterSubmit w (optimisticNote env (trim (input w)) :: l),
                  [createRequest (scope w) (trim (input w))]))
  ∧ (∀ i : value, data_id data = Some i → truthyValue (Some i) = true →
       addNote env w
       = Returns (afterSubmit w
                    (withId (tempIdOf env) i
                       <$> (optimisticNote env (trim (input w)) :: l)),
                  [createRequest (scope w) (trim (input w))]))
  ∧ (∀ s : string, truthyValue (Some (VStr s)) = true ↔ s ≠ "").
Proof.
  intros Htxt Hl Hresp.
  split; [apply tempIdOf_prefix|]. split; [reflexivity|].
  rewrite (addNote_run env w l Htxt Hl). simpl.
  unfold awaitCreate. rewrite Hresp. simpl.
  split; [by intros [-> | ->]|].
  split; [by intros ->|].
  split.
  - intros i Hid Hi. rewrite Hid. simpl. by rewrite Hi.
  - intros s. by destruct s.
Qed.

Lemma addNote_blank_id_as_omitted_witness :
  trim (input Sample.widget) ≠ ""
  ∧ store Sample.widget !! scope_key (scope Sample.widget)
    = Some [Sample.milk; Sample.essay]
  ∧ @addNote reference_json (Sample.created (Some (VStr ""))) Sample.widget
    = @addNote reference_json (Sample.created None) Sample.widget
  ∧ @addNote reference_json (Sample.created (Some (VStr ""))) Sample.widget
    = Returns (afterSubmit Sample.widget
                 [mkNote "tmp-1762146000000-c4e1a" "Call home" 1762146000001 false;
                  Sample.milk; Sample.essay],
               [@createRequest reference_json today "Call home"]).
Proof.
  assert (Htxt : trim (input Sample.widget) ≠ "") by (vm_compute; discriminate).
  split; [exact Htxt|]. split; [reflexivity|].
  destruct (@addNote_blank_id_as_omitted reference_json
              (Sample.created (Some (VStr ""))) Sample.widget
              [Sample.milk; Sample.essay] 201
              (VObj [("id", VStr "")]) Htxt eq_refl eq_refl)
    as (_ & _ & Hblank & _).
  destruct (@addNote_blank_id_as_omitted reference_json
              (Sample.created None) Sample.widget
              [Sample.milk; Sample.essay] 201
              (VObj []) Htxt eq_refl eq_refl)
    as (_ & _ & Hnone & _).
  rewrite (Hblank (or_introl eq_refl)), (Hnone (or_intror eq_refl)).
  split; reflexivity.
Defined.

(** C10, counterexample to the claim as written: the server answers with
    the body [{"id":123}].  The returned id is not a string, yet the guard
    [if (data?.id)] lets it through: the reconciliation runs and the note
    ends with the number [123] for its id. *)
Lemma addNote_reconciles_non_string_id :
  @JSON_parse reference_json Sample.numericIdBody = Returns (VObj [("id", VNum 123)])
  ∧ (∀ s : string, VNum 123 ≠ VStr s)
  ∧ ∃ w' effects,
      @addNote reference_json (Sample.created (Some (VNum 123))) Sample.milkWidget
      = Returns (w', effects)
      ∧ store w' !! scope_key today
        = Some [mkNote (VNum 123) "Buy milk" 1762146000001 false]
      ∧ effects = [@createRequest reference_json today "Buy milk"].
Proof.
  split; [vm_compute; reflexivity|].
  split; [intros s; discriminate|].
  assert (Htxt : trim (input Sample.milkWidget) ≠ "") by (vm_compute; discriminate).
  rewrite (@addNote_run reference_json _ Sample.milkWidget [] Htxt eq_refl).
  eexists _, _. split; [reflexivity|].
  split; [|reflexivity].
  unfold afterSubmit. cbn [store]. by rewrite lookup_insert_eq.
Qed.

(** ** The scope keys are always present *)

Lemma AllScopes_insert {V} (o : gmap string V) (k : string) (v : V) :
  AllScopes o → AllScopes (<[k := v]> o).
Proof.
  intros H sc. destruct (decide (k = scope_key sc)) as [->|Hne].
  - rewrite lookup_insert_eq. by eexists.
  - by rewrite lookup_insert_ne.
Qed.

Lemma updateScope_AllScopes sc f (s : Store) :
  AllScopes s → ∃ s', updateScope sc f s = Returns s' ∧ AllScopes s'.
Proof.
  intros H. destruct (H sc) as [l Hl].
  rewrite (updateScope_Some _ _ _ _ Hl).
  eexists. split; [done|]. by apply AllScopes_insert.
Qed.

Lemma setStore_AllScopes sc f (w : Widget) :
  AllScopes (store w) →
  ∃ w', setStore (updateScope sc f) w = Returns w' ∧ AllScopes (store w').
Proof.
  intros H. destruct (H sc) as [l Hl].
  rewrite (setStore_update _ _ _ _ Hl).
  eexists. split; [done|]. by apply AllScopes_insert.
Qed.

Lemma addNote_AllScopes {json : JSON} (env : Env) (w : Widget) :
  AllScopes (store w) →
  ∃ w' effects, addNote env w = Returns (w', effects) ∧ AllScopes (store w').
Proof.
  intros H. destruct (decide (trim (input w) = "")) as [Hblank|Htxt].
  { unfold addNote. rewrite decide_True by done. by eexists _, _. }
  destruct (H (scope w)) as [l Hl].
  rewrite (addNote_run env w l Htxt Hl). simpl.
  destruct (awaitCreate env) as [data|err]; [destruct (truthyValue (data_id data))|];
    eexists _, _; (split; [done|]); by apply AllScopes_insert.
Qed.

Lemma loadStore_AllScopes {json : JSON} (ls : LocalStorage) :
  ∃ o, loadStore ls = Returns o ∧ AllScopes o.
Proof.
  destruct (loadStore_cases ls) as [H|(m & raw & parsed & _ & _ & _ & _ & H)];
    rewrite H; eexists; (split; [done|]).
  - apply AllScopes_store_object, AllScopes_emptyStore.
  - intros sc. rewrite lookup_union, empty_object_lookup.
    destruct (own_props parsed !! scope_key sc); by eexists.
Qed.




(** * Further properties of the code *)

Import ReferenceFacts.

(** ** The local mutations *)

Lemma flipDone_flipDone (i : string) (n : Note) : flipDone i (flipDone i n) = n.
Proof.
  unfold flipDone. destruct (decide (id n = i)) as [H|H]; simpl.
  - rewrite decide_True by done. destruct n as [? ? ? []]; reflexivity.
  - by rewrite decide_False.
Qed.

Lemma flipDone_twice (i : string) (l : list Note) :
  flipDone i <$> (flipDone i <$> l) = l.
Proof.
  induction l as [|n k IH]; [done|].
  by rewrite !fmap_cons, flipDone_flipDone, IH.
Qed.

Lemma withNotes_store (w : Widget) (l : list Note) :
  store (withNotes w l) !! scope_key (scope (withNotes w l)) = Some l.
Proof. simpl. apply lookup_insert_eq. Qed.

Lemma withNotes_withNotes (w : Widget) (l k : list Note) :
  withNotes (withNotes w l) k = withNotes w k.
Proof. unfold withNotes. simpl. by rewrite insert_insert_eq. Qed.

Lemma toggleDone_run (i : string) (w : Widget) (l : list Note) :
  store w !! scope_key (scope w) = Some l →
  toggleDone i w = Returns (withNotes w (flipDone i <$> l)).
Proof. intros H. by apply setStore_update. Qed.

Lemma removeNote_run (i : string) (w : Widget) (l : list Note) :
  store w !! scope_key (scope w) = Some l →
  removeNote i w = Returns (withNotes w (filter (λ n, id n ≠ i) l)).
Proof. intros H. by apply setStore_update. Qed.

(** X1. Clicking a note twice restores the component state.  In a scope
    that holds a sequence, [toggleDone i] returns a state on which
    [toggleDone i] returns the state before the first click, whatever [i]
    is and however many notes carry it. *)
Theorem toggleDone_involutive (i : string) (w : Widget) (l : list Note) :
  store w !! scope_key (scope w) = Some l →
  ∃ w1, toggleDone i w = Returns w1 ∧ toggleDone i w1 = Returns w.
Proof.
  intros Hl. eexists. split; [by apply toggleDone_run|].
  rewrite (toggleDone_run i _ (flipDone i <$> l)) by apply withNotes_store.
  rewrite withNotes_withNotes. f_equal.
  rewrite flipDone_twice. by apply withNotes_same.
Qed.

Lemma toggleDone_involutive_witness :
  store Sample.widget !! scope_key (scope Sample.widget)
  = Some [Sample.milk; Sample.essay]
  ∧ ∃ w1, toggleDone "n1" Sample.widget = Returns w1
          ∧ toggleDone "n1" w1 = Returns Sample.widget.
Proof.
  split; [reflexivity|].
  exact (toggleDone_involutive "n1" Sample.widget [Sample.milk; Sample.essay] eq_refl).
Defined.

(** X2. After [removeNote i] no note of the selected scope carries the id
    [i], and a further [removeNote i] or [toggleDone i] returns the state
    unchanged: deleting twice, or clicking a note that was just deleted,
    does nothing. *)
Theorem removeNote_settles (i : string) (w : Widget) (l : list Note) :
  store w !! scope_key (scope w) = Some l →
  ∃ (w1 : Widget) (l1 : list Note),
    removeNote i w = Returns w1
    ∧ store w1 !! scope_key (scope w1) = Some l1
    ∧ (∀ n, n ∈ l1 → id n ≠ i)
    ∧ removeNote i w1 = Returns w1
    ∧ toggleDone i w1 = Returns w1.
Proof.
  intros Hl.
  set (l1 := filter (λ n, id n ≠ i) l).
  assert (Habs : ∀ n, n ∈ l1 → id n ≠ i).
  { intros n Hn. by apply list_elem_of_filter in Hn as [? _]. }
  exists (withNotes w l1), l1.
  split; [by apply removeNote_run|].
  split; [apply withNotes_store|].
  split; [exact Habs|].
  rewrite (removeNote_run i _ l1), (toggleDone_run i _ l1) by apply withNotes_store.
  by rewrite filter_absent, flipDone_absent, withNotes_withNotes.
Qed.

Lemma removeNote_settles_witness :
  store Sample.widget !! scope_key (scope Sample.widget)
  = Some [Sample.milk; Sample.essay]
  ∧ ∃ w1, removeNote "n1" Sample.widget = Returns w1
          ∧ removeNote "n1" w1 = Returns w1
          ∧ toggleDone "n1" w1 = Returns w1.
Proof.
  split; [reflexivity|].
  destruct (removeNote_settles "n1" Sample.widget [Sample.milk; Sample.essay] eq_refl)
    as (w1 & l1 & Hrun & _ & _ & Hagain & Htoggle).
  exists w1. split; [exact Hrun|]. split; [exact Hagain | exact Htoggle].
Defined.

Lemma updateScope_comm (sc1 sc2 : Scope) (f g : list Note → list Note) (s : Store) :
  sc1 ≠ sc2 →
  updateScope sc1 f s ≫= updateScope sc2 g
  = updateScope sc2 g s ≫= updateScope sc1 f.
Proof.
  intros Hne.
  assert (Hk : scope_key sc1 ≠ scope_key sc2) by (intros H; by apply Hne, scope_key_inj).
  unfold updateScope, notesOf.
  destruct (s !! scope_key sc1) as [l|] eqn:Hl;
    destruct (s !! scope_key sc2) as [k|] eqn:Hl2; simpl;
    rewrite ?lookup_insert_ne, ?Hl, ?Hl2 by done; simpl; try done.
  by rewrite insert_insert_ne.
Qed.

(** X3. Updaters of two different scopes commute.  Whatever the two updaters
    are (insert, id swap, remove, toggle, clear), applying one to scope
    [sc1] and the other to scope [sc2] gives the same collection in either
    order, and the two orders fail alike. *)
Theorem updates_of_different_scopes_commute
    (sc1 sc2 : Scope) (u1 u2 : Update) (s : Store) :
  sc1 ≠ sc2 →
  applyUpdate sc1 u1 s ≫= applyUpdate sc2 u2
  = applyUpdate sc2 u2 s ≫= applyUpdate sc1 u1.
Proof.
  intros Hne.
  assert (Hk : scope_key sc1 ≠ scope_key sc2)
    by (intros H; by apply Hne, scope_key_inj).
  assert (Hclear : ∀ sc sc' f, scope_key sc ≠ scope_key sc' →
            updateScope sc f (clear sc' s)
            = updateScope sc f s ≫= λ s', Returns (clear sc' s')).
  { intros sc sc' f H. unfold updateScope, notesOf, clear.
    rewrite lookup_insert_ne by done.
    destruct (s !! scope_key sc); simpl; [|done].
    by rewrite insert_insert_ne. }
  destruct u1, u2; simpl; try (by apply updateScope_comm);
    unfold insertNote, replaceIdentifier, remove, toggle;
    try (by rewrite Hclear by done).
  unfold clear. by rewrite insert_insert_ne.
Qed.

Lemma updates_of_different_scopes_commute_witness :
  today ≠ week
  ∧ applyUpdate today (Toggle "n1") Sample.notes ≫= applyUpdate week (Remove "n3")
    = applyUpdate week (Remove "n3") Sample.notes ≫= applyUpdate today (Toggle "n1").
Proof.
  assert (Hne : today ≠ week) by discriminate.
  split; [exact Hne|].
  exact (updates_of_different_scopes_commute today week (Toggle "n1") (Remove "n3")
           Sample.notes Hne).
Defined.

Lemma filter_fmap_by_id (f : Note → Note) (i : string) (l : list Note) :
  (∀ n, id (f n) = i ↔ id n = i) →
  filter (λ n, id n ≠ i) (f <$> l) = f <$> filter (λ n, id n ≠ i) l.
Proof.
  intros Hf. induction l as [|n k IH]; [done|].
  rewrite fmap_cons. destruct (decide (id n = i)) as [Hn|Hn].
  - rewrite !filter_cons_False; [done| |]; rewrite ?Hf; by intros ?.
  - rewrite !filter_cons_True; [|done|by rewrite Hf].
    by rewrite fmap_cons, IH.
Qed.

Lemma filter_filter_by_id (i j : string) (l : list Note) :
  filter (λ n, id n ≠ i) (filter (λ n, id n ≠ j) l)
  = filter (λ n, id n ≠ j) (filter (λ n, id n ≠ i) l).
Proof.
  induction l as [|n k IH]; [done|].
  destruct (decide (id n = i)) as [Hi|Hi]; destruct (decide (id n = j)) as [Hj|Hj];
    repeat (first [ rewrite filter_cons_True by done
                  | rewrite filter_cons_False by (by intros ?) ]);
    by rewrite ?IH.
Qed.

Lemma flipDone_id (i : string) (n : Note) : id (flipDone i n) = id n.
Proof. unfold flipDone. by destruct (decide (id n = i)). Qed.

Lemma withId_id_other (a : string) (b : value) (i : string) (n : Note) :
  i ≠ a → VStr i ≠ b → id (withId a b n) = i ↔ id n = i.
Proof.
  intros Ha Hb. unfold withId. destruct (decide (id n = a)) as [Hn|Hn]; simpl;
    [|done]. split; intros H; congruence.
Qed.

Lemma flipDone_flipDone_comm (i j : string) (n : Note) :
  flipDone i (flipDone j n) = flipDone j (flipDone i n).
Proof.
  unfold flipDone.
  destruct (decide (id n = i)), (decide (id n = j)); simpl;
    rewrite ?decide_True, ?decide_False by done; done.
Qed.

Lemma withId_flipDone_comm (a : string) (b : value) (i : string) (n : Note) :
  i ≠ a → VStr i ≠ b → withId a b (flipDone i n) = flipDone i (withId a b n).
Proof.
  intros Ha Hb. unfold withId, flipDone.
  destruct (decide (id n = a)) as [Hn|Hn], (decide (id n = i)) as [Hi|Hi]; simpl;
    rewrite ?decide_True, ?decide_False by congruence; try done; congruence.
Qed.

Lemma withId_withId_comm (a : string) (b : value) (c : string) (d : value)
    (n : Note) :
  a ≠ c → b ≠ VStr c → d ≠ VStr a →
  withId a b (withId c d n) = withId c d (withId a b n).
Proof.
  intros Hac Hbc Hda. unfold withId.
  destruct (decide (id n = a)) as [Hn|Hn], (decide (id n = c)) as [Hc|Hc]; simpl;
    rewrite ?decide_True, ?decide_False by congruence; try done; congruence.
Qed.

Lemma fmap_fmap_comm (f g : Note → Note) (l : list Note) :
  (∀ n, f (g n) = g (f n)) → f <$> (g <$> l) = g <$> (f <$> l).
Proof.
  intros H. induction l as [|n k IH]; [done|].
  by rewrite !fmap_cons, H, IH.
Qed.

(** X4. In one scope, two updaters that work by id (id swap, remove, toggle)
    commute when they name different ids.  So the settlement of a pending
    note, which swaps or removes its provisional id, and a click on or the
    deletion of another note give the same collection in either order. *)
Theorem updates_of_different_notes_commute
    (sc : Scope) (u1 u2 : Update) (s : Store) :
  byId u1 = true → byId u2 = true →
  (∀ i, i ∈ idsOf u1 → i ∉ idsOf u2) →
  applyUpdate sc u1 s ≫= applyUpdate sc u2
  = applyUpdate sc u2 s ≫= applyUpdate sc u1.
Proof.
  intros H1 H2 Hdis.
  destruct u1 as [|a b|i|i|]; try discriminate H1;
    destruct u2 as [|c d|j|j|]; try discriminate H2;
    unfold applyUpdate, replaceIdentifier, remove, toggle, updateScope, notesOf;
    (destruct (s !! scope_key sc) as [l|]; simpl; [|done]);
    rewrite !lookup_insert_eq; simpl; rewrite !insert_insert_eq; do 2 f_equal.
  - assert (a ≠ c ∧ VStr a ≠ d ∧ b ≠ VStr c ∧ b ≠ d) as (? & ? & ? & ?).
    { pose proof (Hdis (VStr a)) as Ha. pose proof (Hdis b) as Hb. simpl in *.
      rewrite !elem_of_cons, !elem_of_nil in Ha, Hb.
      repeat split; intros ?; subst; tauto. }
    apply fmap_fmap_comm. intros n. by apply withId_withId_comm.
  - assert (j ≠ a ∧ VStr j ≠ b) as [? ?].
    { pose proof (Hdis (VStr a)) as Ha. pose proof (Hdis b) as Hb. simpl in *.
      rewrite !elem_of_cons, !elem_of_nil in Ha, Hb.
      repeat split; intros ?; subst; tauto. }
    apply filter_fmap_by_id. intros n. by apply withId_id_other.
  - assert (j ≠ a ∧ VStr j ≠ b) as [? ?].
    { pose proof (Hdis (VStr a)) as Ha. pose proof (Hdis b) as Hb. simpl in *.
      rewrite !elem_of_cons, !elem_of_nil in Ha, Hb.
      repeat split; intros ?; subst; tauto. }
    apply fmap_fmap_comm. intros n. symmetry. by apply withId_flipDone_comm.
  - assert (i ≠ c ∧ VStr i ≠ d) as [? ?].
    { pose proof (Hdis (VStr i)) as Hi. simpl in *.
      rewrite !elem_of_cons, !elem_of_nil in Hi.
      repeat split; intros ?; subst; tauto. }
    symmetry. apply filter_fmap_by_id. intros n. by apply withId_id_other.
  - apply filter_filter_by_id.
  - symmetry. apply filter_fmap_by_id. intros n. by rewrite flipDone_id.
  - assert (i ≠ c ∧ VStr i ≠ d) as [? ?].
    { pose proof (Hdis (VStr i)) as Hi. simpl in *.
      rewrite !elem_of_cons, !elem_of_nil in Hi.
      repeat split; intros ?; subst; tauto. }
    apply fmap_fmap_comm. intros n. by apply withId_flipDone_comm.
  - apply filter_fmap_by_id. intros n. by rewrite flipDone_id.
  - apply fmap_fmap_comm. intros n. apply flipDone_flipDone_comm.
Qed.

Lemma updates_of_different_notes_commute_witness :
  byId (Toggle "n1") = true ∧ byId (Replace "n2" "srv-7") = true
  ∧ (∀ i, i ∈ idsOf (Toggle "n1") → i ∉ idsOf (Replace "n2" "srv-7"))
  ∧ applyUpdate today (Toggle "n1") Sample.notes
      ≫= applyUpdate today (Replace "n2" "srv-7")
    = applyUpdate today (Replace "n2" "srv-7") Sample.notes
        ≫= applyUpdate today (Toggle "n1").
Proof.
  assert (Hdis : ∀ i, i ∈ idsOf (Toggle "n1") → i ∉ idsOf (Replace "n2" "srv-7")).
  { intros i Hi Hj. apply list_elem_of_singleton in Hi as ->.
    apply elem_of_cons in Hj as [Hj|Hj]; [discriminate Hj|].
    apply list_elem_of_singleton in Hj. discriminate Hj. }
  split; [reflexivity|]. split; [reflexivity|]. split; [exact Hdis|].
  exact (updates_of_different_notes_commute today (Toggle "n1") (Replace "n2" "srv-7")
           Sample.notes eq_refl eq_refl Hdis).
Defined.

(** X5. Whatever the composer holds and whatever the environment answers, a
    call of [addNote] in a scope that holds a sequence returns, keeps the
    selected scope, and leaves every other key of the collection as it
    was. *)
Theorem addNote_changes_selected_scope_only {json : JSON}
    (env : Env) (w : Widget) (l : list Note) :
  store w !! scope_key (scope w) = Some l →
  ∃ w' effects,
    addNote env w = Returns (w', effects)
    ∧ scope w' = scope w
    ∧ ∀ k, k ≠ scope_key (scope w) → store w' !! k = store w !! k.
Proof.
  intros Hl. destruct (decide (trim (input w) = "")) as [Hblank|Htxt].
  { unfold addNote. rewrite decide_True by done. by eexists _, _. }
  rewrite (addNote_run env w l Htxt Hl). simpl.
  destruct (awaitCreate env) as [data|err]; [destruct (truthyValue (data_id data))|];
    eexists _, _; (split; [reflexivity|]); (split; [reflexivity|]);
    intros k Hk; simpl; by rewrite lookup_insert_ne.
Qed.

Lemma addNote_changes_selected_scope_only_witness :
  store Sample.widget !! scope_key (scope Sample.widget)
  = Some [Sample.milk; Sample.essay]
  ∧ ∃ w' effects,
      @addNote reference_json Sample.offline Sample.widget = Returns (w', effects)
      ∧ store w' !! scope_key week = Some [Sample.exam].
Proof.
  split; [reflexivity|].
  destruct (@addNote_changes_selected_scope_only reference_json Sample.offline
              Sample.widget [Sample.milk; Sample.essay] eq_refl)
    as (w' & effects & Hrun & _ & Hother).
  exists w', effects. split; [exact Hrun|].
  rewrite (Hother (scope_key week)); [reflexivity | discriminate].
Defined.

Lemma withId_keeps (a : string) (b : value) (n : Note) :
  text (withId a b n) = text n ∧ createdAt (withId a b n) = createdAt n
  ∧ done (withId a b n) = done n ∧ (id n ≠ a → withId a b n = n).
Proof.
  unfold withId. destruct (decide (id n = a)); simpl; naive_solver.
Qed.

(** X6. When the request succeeds, [addNote] on a text that is not blank
    puts the new note at the head of the selected scope: its text is the
    trimmed input, its creation time the second clock reading, it is not
    done, and its id is the id the response carries whenever that id is
    truthy (a non-empty string, but also a number other than [0] and
    [NaN], [true], an array or an object, each stored as it is) and the
    provisional id otherwise (no id, or an id that is the empty string,
    [null], [false], [0] or [NaN]).  Behind it come the notes that
    were there, in their order, each with its text, creation time and done
    flag, and each unchanged unless it carried the provisional id.  The
    composer is cleared and the only effect is the one request. *)
Theorem addNote_prepends_on_success {json : JSON}
    (env : Env) (w : Widget) (l : list Note) (data : value) :
  trim (input w) ≠ "" →
  store w !! scope_key (scope w) = Some l →
  awaitCreate env = Returns data →
  ∃ (w' : Widget) (n : Note) (rest : list Note),
    addNote env w = Returns (w', [createRequest (scope w) (trim (input w))])
    ∧ store w' !! scope_key (scope w) = Some (n :: rest)
    ∧ input w' = ""
    ∧ text n = trim (input w) ∧ createdAt n = now_created env ∧ done n = false
    ∧ id n = match data_id data with
             | Some i => if truthyValue (Some i) then i else VStr (tempIdOf env)
             | None => VStr (tempIdOf env)
             end
    ∧ length rest = length l
    ∧ ∀ (k : nat) (old : Note), l !! k = Some old →
        ∃ new, rest !! k = Some new
          ∧ text new = text old ∧ createdAt new = createdAt old
          ∧ done new = done old
          ∧ (id old ≠ tempIdOf env → new = old).
Proof.
  intros Htxt Hl Hok.
  rewrite (addNote_run env w l Htxt Hl). simpl. rewrite Hok.
  set (opt := optimisticNote env (trim (input w))).
  assert (Hhead : ∀ c, withId (tempIdOf env) c opt
                       = mkNote c (trim (input w)) (now_created env) false).
  { intros c. unfold withId. by rewrite decide_True. }
  destruct (truthyValue (data_id data)) eqn:Htruthy.
  - exists (afterSubmit w (withId (tempIdOf env) (default VNull (data_id data)) <$> opt :: l)),
      (mkNote (default VNull (data_id data)) (trim (input w)) (now_created env) false),
      (withId (tempIdOf env) (default VNull (data_id data)) <$> l).
    split; [reflexivity|].
    split.
    { unfold afterSubmit. cbn [store]. rewrite lookup_insert_eq, fmap_cons.
      by rewrite Hhead. }
    repeat (split; [done|]).
    split; [destruct (data_id data) as [i|]; simpl in *; [by rewrite Htruthy|done]|].
    split; [by rewrite length_fmap|].
    intros k old Hk. exists (withId (tempIdOf env) (default VNull (data_id data)) old).
    rewrite list_lookup_fmap, Hk. split; [done|].
    apply withId_keeps.
  - exists (afterSubmit w (opt :: l)), opt, l.
    split; [reflexivity|].
    split; [simpl; by rewrite lookup_insert_eq|].
    repeat (split; [done|]).
    split; [destruct (data_id data) as [i|]; simpl in *; [by rewrite Htruthy|done]|].
    split; [done|].
    intros k old Hk. exists old. by rewrite Hk.
Qed.

Lemma addNote_prepends_on_success_witness :
  trim (input Sample.widget) ≠ ""
  ∧ store Sample.widget !! scope_key (scope Sample.widget)
    = Some [Sample.milk; Sample.essay]
  ∧ awaitCreate (Sample.created (Some (VNum 123)))
    = Returns (VObj [("id", VNum 123)])
  ∧ ∃ w' n rest,
      @addNote reference_json (Sample.created (Some (VNum 123))) Sample.widget
      = Returns (w', [@createRequest reference_json today "Call home"])
      ∧ store w' !! scope_key today = Some (n :: rest)
      ∧ text n = "Call home" ∧ id n = VNum 123 ∧ length rest = 2%nat.
Proof.
  assert (Htxt : trim (input Sample.widget) ≠ "") by (vm_compute; discriminate).
  split; [exact Htxt|]. split; [reflexivity|]. split; [reflexivity|].
  destruct (@addNote_prepends_on_success reference_json
              (Sample.created (Some (VNum 123)))
              Sample.widget [Sample.milk; Sample.essay]
              (VObj [("id", VNum 123)]) Htxt eq_refl eq_refl)
    as (w' & n & rest & Hrun & Hl & _ & Htext & _ & _ & Hid & Hlen & _).
  exists w', n, rest.
  split; [exact Hrun|]. split; [exact Hl|]. split; [exact Htext|].
  split; [exact Hid | exact Hlen].
Defined.

(** X7. A call of [addNote] on a text that is not blank sends exactly one
    request, first of all its effects, for the selected scope and the
    trimmed text, and clears the composer.  When the request succeeds
    nothing else happens; when it fails, in whatever way, the error is
    logged and then one alert with the fixed notice is shown. *)
Theorem addNote_one_request_one_notice {json : JSON}
    (env : Env) (w : Widget) (l : list Note) :
  trim (input w) ≠ "" →
  store w !! scope_key (scope w) = Some l →
  ∃ (w' : Widget) (tail : list Effect),
    addNote env w
    = Returns (w', createRequest (scope w) (trim (input w)) :: tail)
    ∧ input w' = ""
    ∧ (∀ e, e ∈ tail → isFetch e = false)
    ∧ (∀ data, awaitCreate env = Returns data → tail = [])
    ∧ (∀ err, awaitCreate env = Throws err →
         tail = [ConsoleError err; Alert failureNotice]).
Proof.
  intros Htxt Hl.
  rewrite (addNote_run env w l Htxt Hl). simpl.
  destruct (awaitCreate env) as [data|err]; [destruct (truthyValue (data_id data))|];
    eexists _, _; (split; [reflexivity|]); (split; [reflexivity|]);
    (split; [intros e He;
       repeat (apply elem_of_cons in He as [->|He]; [reflexivity|]);
       by apply elem_of_nil in He|]); split; intros ? H; by simplify_eq.
Qed.

Lemma addNote_one_request_one_notice_witness :
  trim (input Sample.widget) ≠ ""
  ∧ store Sample.widget !! scope_key (scope Sample.widget)
    = Some [Sample.milk; Sample.essay]
  ∧ ∃ w', @addNote reference_json Sample.offline Sample.widget
          = Returns (w', [@createRequest reference_json today "Call home";
                          ConsoleError NetworkError; Alert failureNotice]).
Proof.
  assert (Htxt : trim (input Sample.widget) ≠ "") by (vm_compute; discriminate).
  split; [exact Htxt|]. split; [reflexivity|].
  destruct (@addNote_one_request_one_notice reference_json Sample.offline
              Sample.widget [Sample.milk; Sample.essay] Htxt eq_refl)
    as (w' & tail & Hrun & _ & _ & _ & Hfail).
  exists w'. rewrite Hrun. rewrite (Hfail NetworkError eq_refl). reflexivity.
Defined.

(** Trimming *)

Lemma rev_app_append (a b : string) : String.rev_app a b = String.rev a +:+ b.
Proof.
  unfold String.rev. revert b. induction a as [|c a IH]; intros b; [done|].
  simpl. rewrite (IH (String c b)), (IH (String c "")).
  by rewrite append_assoc.
Qed.

Lemma rev_cons (c : ascii) (a : string) :
  String.rev (String c a) = String.rev a +:+ String c "".
Proof. unfold String.rev at 1. simpl. apply rev_app_append. Qed.

Lemma rev_append (a b : string) :
  String.rev (a +:+ b) = String.rev b +:+ String.rev a.
Proof.
  induction a as [|c a IH]; [by rewrite append_nil_l, append_nil_r|].
  by rewrite append_cons, !rev_cons, IH, append_assoc.
Qed.

Lemma rev_rev (a : string) : String.rev (String.rev a) = a.
Proof.
  induction a as [|c a IH]; [done|].
  by rewrite rev_cons, rev_append, IH.
Qed.

Lemma allWhite_append (a b : string) :
  allWhite (a +:+ b) = allWhite a && allWhite b.
Proof.
  induction a as [|c a IH]; [done|].
  rewrite append_cons. simpl. rewrite IH. by destruct (is_white_space c).
Qed.

Lemma allWhite_rev (a : string) : allWhite (String.rev a) = allWhite a.
Proof.
  induction a as [|c a IH]; [done|].
  rewrite rev_cons, allWhite_append, IH. simpl.
  by destruct (is_white_space c), (allWhite a).
Qed.

Lemma trimStart_spec (s : string) :
  ∃ p, s = p +:+ trimStart s ∧ allWhite p = true ∧ startsPlain (trimStart s).
Proof.
  induction s as [|c s (p & Hs & Hp & Hplain)]; [by exists ""|].
  simpl. destruct (is_white_space c) eqn:Hc.
  - exists (String c p). rewrite append_cons, <- Hs. simpl. by rewrite Hc.
  - exists "". by rewrite append_nil_l.
Qed.

Lemma trimStart_allWhite (s : string) : allWhite s = true → trimStart s = "".
Proof.
  induction s as [|c s IH]; [done|]. simpl.
  destruct (is_white_space c); [|done]. simpl. exact IH.
Qed.

Lemma startsPlain_append (a b : string) :
  a ≠ "" → startsPlain (a +:+ b) → startsPlain a.
Proof. destruct a; [done|]. by rewrite append_cons. Qed.

(** What [trim] removes and what it leaves. *)
Lemma trim_spec (s : string) :
  ∃ p q, s = p +:+ trim s +:+ q
    ∧ allWhite p = true ∧ allWhite q = true
    ∧ startsPlain (trim s) ∧ startsPlain (String.rev (trim s)).
Proof.
  destruct (trimStart_spec s) as (p & Hs & Hp & Hplain).
  destruct (trimStart_spec (String.rev (trimStart s))) as (q & Ht & Hq & Hplain').
  assert (Htrim : trimStart s = trim s +:+ String.rev q).
  { rewrite <- (rev_rev (trimStart s)), Ht at 1. by rewrite rev_append. }
  exists p, (String.rev q).
  split; [by rewrite <- Htrim|].
  split; [done|]. split; [by rewrite allWhite_rev|].
  split.
  - destruct (decide (trim s = "")) as [->|Hne]; [done|].
    apply (startsPlain_append _ (String.rev q)); [done|]. by rewrite <- Htrim.
  - unfold trim. by rewrite rev_rev.
Qed.

Lemma trim_blank_iff (s : string) : trim s = "" ↔ allWhite s = true.
Proof.
  split.
  - intros H. destruct (trim_spec s) as (p & q & Hs & Hp & Hq & _).
    rewrite Hs, H, !allWhite_append, Hp, Hq. done.
  - intros H. unfold trim. by rewrite (trimStart_allWhite s H).
Qed.

(** X8. [addNote] returns the state unchanged, with no effect at all,
    exactly when the composer holds white space only (or nothing). *)
Theorem addNote_ignores_exactly_blank_input {json : JSON} (env : Env) (w : Widget) :
  addNote env w = Returns (w, []) ↔ allWhite (input w) = true.
Proof.
  rewrite <- trim_blank_iff. split.
  - intros Hrun. destruct (decide (trim (input w) = "")) as [|Htxt]; [done|].
    exfalso. destruct (store w !! scope_key (scope w)) as [l|] eqn:Hl.
    + rewrite (addNote_run env w l Htxt Hl) in Hrun. simpl in Hrun.
      destruct (awaitCreate env) as [data|err];
        [destruct (truthyValue (data_id data))|]; discriminate Hrun.
    + unfold addNote, setStore, insertNote, updateScope, notesOf in Hrun.
      rewrite decide_False, Hl in Hrun by done. discriminate Hrun.
  - intros Hblank. unfold addNote. by rewrite decide_True.
Qed.

(** X9. The text of the note that [addNote] stores is the input without
    its leading and trailing white space: the input is the stored text
    between two runs of white space, and the stored text is not empty and
    neither begins nor ends with white space.  White space inside the text
    is kept. *)
Theorem addNote_stores_trimmed_text {json : JSON}
    (env : Env) (w : Widget) (l : list Note) (data : value) :
  allWhite (input w) = false →
  store w !! scope_key (scope w) = Some l →
  awaitCreate env = Returns data →
  ∃ (w' : Widget) (effects : list Effect) (n : Note) (rest : list Note)
    (before after : string),
    addNote env w = Returns (w', effects)
    ∧ store w' !! scope_key (scope w) = Some (n :: rest)
    ∧ input w = before +:+ text n +:+ after
    ∧ allWhite before = true ∧ allWhite after = true
    ∧ text n ≠ ""
    ∧ startsPlain (text n) ∧ startsPlain (String.rev (text n)).
Proof.
  intros Hwhite Hl Hok.
  assert (Htxt : trim (input w) ≠ "").
  { rewrite trim_blank_iff. by rewrite Hwhite. }
  destruct (trim_spec (input w)) as (p & q & Hs & Hp & Hq & Hstart & Hend).
  rewrite (addNote_run env w l Htxt Hl). simpl. rewrite Hok.
  set (opt := optimisticNote env (trim (input w))).
  destruct (truthyValue (data_id data)).
  - eexists _, _,
      (mkNote (default VNull (data_id data)) (trim (input w)) (now_created env) false),
      _, p, q.
    split; [reflexivity|]. split; [|done].
    unfold afterSubmit. cbn [store]. rewrite lookup_insert_eq.
    do 2 f_equal. unfold withId. by rewrite decide_True.
  - eexists _, _, opt, l, p, q.
    split; [reflexivity|]. split; [|done].
    unfold afterSubmit. cbn [store]. by rewrite lookup_insert_eq.
Qed.

Lemma addNote_stores_trimmed_text_witness :
  allWhite (input Sample.widget) = false
  ∧ store Sample.widget !! scope_key (scope Sample.widget)
    = Some [Sample.milk; Sample.essay]
  ∧ awaitCreate (Sample.created None) = Returns (VObj [])
  ∧ ∃ w' effects n rest before after,
      @addNote reference_json (Sample.created None) Sample.widget
      = Returns (w', effects)
      ∧ store w' !! scope_key today = Some (n :: rest)
      ∧ "  Call home " = before +:+ text n +:+ after
      ∧ allWhite before = true ∧ allWhite after = true
      ∧ text n ≠ "".
Proof.
  split; [reflexivity|]. split; [reflexivity|]. split; [reflexivity|].
  destruct (@addNote_stores_trimmed_text reference_json (Sample.created None)
              Sample.widget [Sample.milk; Sample.essay]
              (VObj []) eq_refl eq_refl eq_refl)
    as (w' & effects & n & rest & before & after & Hrun & Hl & Hin & Hb & Ha & Hne & _).
  exists w', effects, n, rest, before, after.
  repeat (split; [assumption|]). exact Hne.
Defined.

(** Provisional ids *)

Lemma allDigits_append (a b : string) :
  allDigits (a +:+ b) = allDigits a && allDigits b.
Proof.
  induction a as [|c a IH]; [done|].
  rewrite append_cons. simpl. rewrite IH. by rewrite andb_assoc.
Qed.

Lemma pretty_N_go_digits (x : N) (s : string) :
  ∃ d, pretty_N_go x s = d +:+ s ∧ allDigits d = true ∧ (0 < x → d ≠ "")%N.
Proof.
  revert s. induction (N.lt_wf_0 x) as [x _ IH]. intros s.
  destruct (decide (x = 0)%N) as [->|Hx].
  { exists "". rewrite pretty_N_go_0. split; [done|]. split; [done|]. lia. }
  rewrite pretty_N_go_step by lia.
  destruct (IH (x `div` 10)%N) with (s := String (pretty_N_char (x `mod` 10)) s)
    as (d & -> & Hd & _); [apply N.div_lt; lia|].
  exists (d +:+ String (pretty_N_char (x `mod` 10)) "").
  split; [by rewrite append_assoc|].
  split.
  - rewrite allDigits_append, Hd. simpl.
    rewrite digitValue_pretty_N_char by (apply N.mod_lt; lia).
    rewrite bool_decide_eq_true_2; [done | by eexists].
  - intros _. by destruct d.
Qed.

(** The sign and the digits of a printed integer. *)
Lemma pretty_Z_shape (z : Z) :
  ∃ sign d, pretty z = sign +:+ d ∧ (sign = "" ∨ sign = "-")
    ∧ allDigits d = true ∧ d ≠ "".
Proof.
  destruct z as [|p|p].
  - exists "", "0". auto.
  - destruct (pretty_N_go_digits (N.pos p) "") as (d & Hd & Hall & Hne).
    exists "", d. rewrite append_nil_r in Hd.
    split; [exact Hd|]. split; [by left|]. split; [done|]. apply Hne. lia.
  - destruct (pretty_N_go_digits (N.pos p) "") as (d & Hd & Hall & Hne).
    exists "-", d. rewrite append_nil_r in Hd.
    split; [by rewrite <- Hd|]. split; [by right|]. split; [done|]. apply Hne. lia.
Qed.

Lemma digits_then_dash (d1 d2 r1 r2 : string) :
  allDigits d1 = true → allDigits d2 = true →
  d1 +:+ String "-" r1 = d2 +:+ String "-" r2 → d1 = d2 ∧ r1 = r2.
Proof.
  revert d2. induction d1 as [|c d1 IH]; intros [|c2 d2] H1 H2 Heq.
  - rewrite !append_nil_l in Heq. by simplify_eq.
  - rewrite append_nil_l, append_cons in Heq. by simplify_eq.
  - rewrite append_nil_l, append_cons in Heq. by simplify_eq.
  - rewrite !append_cons in Heq. simplify_eq.
    simpl in H1, H2. apply andb_prop in H1 as [_ H1]. apply andb_prop in H2 as [_ H2].
    destruct (IH d2 H1 H2) as [-> ->]; done.
Qed.

(** X10. Two calls generate the same provisional id only when both the
    clock reading and the random digits coincide: the id determines the
    two parts it is built from, whatever characters the random part
    holds. *)
Theorem tempIdOf_injective (env1 env2 : Env) :
  tempIdOf env1 = tempIdOf env2 →
  now_id env1 = now_id env2 ∧ random_digits env1 = random_digits env2.
Proof.
  unfold tempIdOf. intros Heq.
  apply (inj (String.app "tmp-")) in Heq.
  destruct (pretty_Z_shape (now_id env1)) as (s1 & d1 & H1 & Hs1 & Hd1 & Hn1).
  destruct (pretty_Z_shape (now_id env2)) as (s2 & d2 & H2 & Hs2 & Hd2 & Hn2).
  rewrite H1, H2, !append_assoc in Heq.
  change ("-" +:+ ?r) with (String "-"%char r) in Heq.
  assert (s1 +:+ d1 = s2 +:+ d2 ∧ random_digits env1 = random_digits env2)
    as [Hnum Hrand].
  { destruct Hs1 as [-> | ->], Hs2 as [-> | ->];
      rewrite ?append_nil_l, ?append_cons in Heq.
    - destruct (digits_then_dash _ _ _ _ Hd1 Hd2 Heq) as [-> ->]. done.
    - destruct d1 as [|c d1]; [done|]. rewrite append_cons in Heq.
      by simplify_eq.
    - destruct d2 as [|c d2]; [done|]. rewrite append_cons in Heq.
      by simplify_eq.
    - rewrite !append_nil_l in Heq. simplify_eq.
      destruct (digits_then_dash _ _ _ _ Hd1 Hd2 Heq) as [-> ->]. done. }
  split; [|done]. apply (inj pretty). by rewrite H1, H2.
Qed.

Lemma tempIdOf_injective_witness :
  tempIdOf Sample.offline = tempIdOf (Sample.created None)
  ∧ now_id Sample.offline = now_id (Sample.created None)
  ∧ random_digits Sample.offline = random_digits (Sample.created None).
Proof.
  split; [reflexivity|].
  exact (tempIdOf_injective Sample.offline (Sample.created None) eq_refl).
Defined.

(** Invariants of the updates *)

Lemma applyUpdate_run (sc : Scope) (u : Update) (s : Store) (l : list Note) :
  s !! scope_key sc = Some l →
  applyUpdate sc u s
  = Returns (<[scope_key sc :=
               match u with
               | Insert n => n :: l
               | Replace a b => withId a b <$> l
               | Remove i => filter (λ n, id n ≠ i) l
               | Toggle i => flipDone i <$> l
               | Clear => []
               end]> s).
Proof.
  intros Hl. destruct u; simpl; try by apply updateScope_Some. done.
Qed.

Lemma withId_ids (a : string) (b : value) (l : list Note) (i : value) :
  i ∈ id <$> (withId a b <$> l) → i ∈ id <$> l ∨ i = b.
Proof.
  induction l as [|n k IH]; [by left|].
  rewrite !fmap_cons, !elem_of_cons. intros [->|H].
  - unfold withId. destruct (decide (id n = a)); simpl; auto.
  - destruct (IH H); auto.
Qed.

Lemma withId_NoDup (a : string) (b : value) (l : list Note) :
  NoDup (id <$> l) → b ∉ id <$> l → NoDup (id <$> (withId a b <$> l)).
Proof.
  induction l as [|n k IH]; [done|].
  rewrite (fmap_cons id n k). rewrite NoDup_cons, not_elem_of_cons.
  intros [Hn Hk] [Hb Hbk].
  destruct (decide (id n = a)) as [Ha|Ha].
  - rewrite fmap_cons, withId_absent.
    + unfold withId. rewrite decide_True by done. rewrite fmap_cons. simpl.
      by apply NoDup_cons.
    + intros x Hx Hxa. apply Hn. rewrite Ha, <- Hxa.
      apply list_elem_of_fmap. by exists x.
  - rewrite fmap_cons. unfold withId at 1. rewrite decide_False by done.
    rewrite fmap_cons. apply NoDup_cons. split; [|by apply IH].
    intros Hin. apply withId_ids in Hin as [Hin|Hin]; [done|]. by apply Hb.
Qed.

Lemma flipDone_ids (i : string) (l : list Note) :
  id <$> (flipDone i <$> l) = id <$> l.
Proof.
  induction l as [|n k IH]; [done|].
  rewrite !fmap_cons, IH. f_equal. apply flipDone_id.
Qed.

Lemma filter_ids_NoDup (P : Note → Prop) `{!∀ n, Decision (P n)} (l : list Note) :
  NoDup (id <$> l) → NoDup (id <$> filter P l).
Proof.
  intros Hnd. eapply sublist_NoDup; [exact Hnd|].
  apply fmap_sublist, sublist_filter.
Qed.

(** X11. Ids that are pairwise distinct in a scope stay so under every
    updater, provided that the id of an inserted note, or the new id of a
    swap, is not in use in the scope.  Remove, toggle and clear need no
    proviso. *)
Theorem updates_keep_ids_distinct (sc : Scope) (u : Update) (s : Store)
    (l : list Note) :
  s !! scope_key sc = Some l →
  NoDup (id <$> l) →
  keepsIdsDistinct u l →
  ∃ s' l',
    applyUpdate sc u s = Returns s' ∧
    s' !! scope_key sc = Some l' ∧
    NoDup (id <$> l').
Proof.
  intros Hl Hnd Hu. rewrite (applyUpdate_run sc u s l Hl).
  eexists _, _. split; [reflexivity|]. split; [apply lookup_insert_eq|].
  destruct u as [n|a b|i|i|]; simpl in Hu.
  - rewrite fmap_cons. by apply NoDup_cons.
  - by apply withId_NoDup.
  - by apply filter_ids_NoDup.
  - by rewrite flipDone_ids.
  - apply NoDup_nil_2.
Qed.

Lemma updates_keep_ids_distinct_witness :
  Sample.notes !! scope_key today = Some [Sample.milk; Sample.essay]
  ∧ NoDup (id <$> [Sample.milk; Sample.essay])
  ∧ keepsIdsDistinct (Replace "n1" "srv-9") [Sample.milk; Sample.essay]
  ∧ ∃ s' l', applyUpdate today (Replace "n1" "srv-9") Sample.notes = Returns s'
             ∧ s' !! scope_key today = Some l'
             ∧ NoDup (id <$> l').
Proof.
  assert (Hnd : NoDup (id <$> [Sample.milk; Sample.essay])).
  { apply (bool_decide_unpack _). reflexivity. }
  assert (Hfresh : keepsIdsDistinct (Replace "n1" "srv-9") [Sample.milk; Sample.essay]).
  { apply (bool_decide_unpack _). reflexivity. }
  split; [reflexivity|]. split; [exact Hnd|]. split; [exact Hfresh|].
  exact (updates_keep_ids_distinct today (Replace "n1" "srv-9") Sample.notes
           [Sample.milk; Sample.essay] eq_refl Hnd Hfresh).
Defined.

Lemma withId_written (a : string) (b : value) (l : list Note) :
  written <$> (withId a b <$> l) = written <$> l.
Proof.
  induction l as [|n k IH]; [done|].
  rewrite !fmap_cons, IH. f_equal. unfold withId. by destruct (decide _).
Qed.

Lemma flipDone_written (i : string) (l : list Note) :
  written <$> (flipDone i <$> l) = written <$> l.
Proof.
  induction l as [|n k IH]; [done|].
  rewrite !fmap_cons, IH. f_equal. unfold flipDone. by destruct (decide _).
Qed.

(** X12. No updater edits the text or the creation time of a note, and none
    reorders the notes.  The sequence of (text, createdAt) pairs of the
    scope is afterwards the old one with the new note in front (insert),
    the old one (id swap, toggle), a subsequence of the old one (remove), or
    empty (clear). *)
Theorem updates_never_edit_or_reorder (sc : Scope) (u : Update) (s : Store)
    (l : list Note) :
  s !! scope_key sc = Some l →
  ∃ s' l',
    applyUpdate sc u s = Returns s' ∧
    s' !! scope_key sc = Some l' ∧
    match u with
    | Insert n => written <$> l' = written n :: (written <$> l)
    | Replace _ _ | Toggle _ => written <$> l' = written <$> l
    | Remove _ => sublist (written <$> l') (written <$> l)
    | Clear => l' = []
    end.
Proof.
  intros Hl. rewrite (applyUpdate_run sc u s l Hl).
  eexists _, _. split; [reflexivity|]. split; [apply lookup_insert_eq|].
  destruct u as [n|a b|i|i|].
  - by rewrite fmap_cons.
  - apply withId_written.
  - apply fmap_sublist, sublist_filter.
  - apply flipDone_written.
  - done.
Qed.

Lemma updates_never_edit_or_reorder_witness :
  Sample.notes !! scope_key today = Some [Sample.milk; Sample.essay]
  ∧ ∃ s' l', applyUpdate today (Remove "n1") Sample.notes = Returns s'
             ∧ s' !! scope_key today = Some l'
             ∧ sublist (written <$> l') (written <$> [Sample.milk; Sample.essay]).
Proof.
  split; [reflexivity|].
  exact (updates_never_edit_or_reorder today (Remove "n1") Sample.notes
           [Sample.milk; Sample.essay] eq_refl).
Defined.

(** ** The session keys of the dashboard *)


(** X14. The notes and the session share localStorage without interfering.
    [handleLogout] leaves what [loadStore] returns unchanged, so the notes
    survive a logout; and [saveStore] changes no key other than [LS_KEY], so
    it leaves the outcome of the mount effect of [Dashboard] unchanged. *)
Theorem notes_and_session_do_not_interfere {json : JSON}
    (m : gmap string string) (c : Store) (userEmail : string) :
  (∃ ls effects, handleLogout (Items m) = Returns (ls, effects)
      ∧ loadStore ls = loadStore (Items m))
  ∧ (∃ ls, saveStore c (Items m) = Returns ls
      ∧ dashboardMount ls userEmail = dashboardMount (Items m) userEmail
      ∧ ∀ k, k ≠ LS_KEY → getItem k ls = getItem k (Items m)).
Proof.
  split.
  - eexists _, _. split; [reflexivity|].
    unfold loadStore. simpl. by rewrite !lookup_delete_ne.
  - eexists. split; [reflexivity|]. split.
    + unfold dashboardMount. simpl. by rewrite !lookup_insert_ne.
    + intros k Hk. simpl. by rewrite lookup_insert_ne.
Qed.

Lemma notes_and_session_do_not_interfere_witness :
  "isAuthenticated" ≠ LS_KEY
  ∧ ∃ ls, @saveStore reference_json Sample.notes (Items Scenario.session) = Returns ls
          ∧ getItem "isAuthenticated" ls = Returns (Some "true").
Proof.
  split; [discriminate|].
  destruct (@notes_and_session_do_not_interfere reference_json Scenario.session
              Sample.notes "")
    as (_ & ls & Hsave & _ & Hkeys).
  exists ls. split; [exact Hsave|].
  rewrite (Hkeys "isAuthenticated"); [reflexivity | discriminate].
Defined.

(** ** Date texts of the plan *)


Lemma span_app (p : ascii → bool) (a b : string) :
  allOf p a = true → headFails p b → span p (a +:+ b) = (a, b).
Proof.
  intros Ha Hb. induction a as [|c a IH].
  - rewrite append_nil_l. destruct b as [|c b]; [done|]. simpl in *. by rewrite Hb.
  - simpl in Ha. apply andb_prop in Ha as [Hc Ha].
    rewrite append_cons. simpl. by rewrite Hc, IH.
Qed.

Lemma group_app (p : ascii → bool) (a b : string) :
  allOf p a = true → a ≠ "" → headFails p b → group p (a +:+ b) = Some (a, b).
Proof.
  intros Ha Hne Hb. unfold group. rewrite span_app by done. by destruct a.
Qed.

Lemma stripPrefix_app (word rest : string) :
  Reference.stripPrefix word (word +:+ rest) = Some rest.
Proof.
  induction word as [|c word IH]; [done|].
  rewrite append_cons. simpl. by rewrite decide_True.
Qed.

Lemma span_split (p : ascii → bool) (s run after : string) :
  span p s = (run, after) → s = run +:+ after.
Proof.
  revert run after. induction s as [|c s IH]; intros run after H; simpl in H.
  - by simplify_eq.
  - destruct (p c); [|by simplify_eq].
    destruct (span p s) as [r a] eqn:E. simplify_eq.
    by rewrite append_cons, <- (IH r after).
Qed.

Lemma group_split (p : ascii → bool) (s run after : string) :
  group p s = Some (run, after) → s = run +:+ after.
Proof.
  unfold group. destruct (span p s) as [r a] eqn:E. intros H.
  apply span_split in E. destruct r; by simplify_eq.
Qed.

Lemma stripPrefix_split (word s rest : string) :
  Reference.stripPrefix word s = Some rest → s = word +:+ rest.
Proof.
  revert s. induction word as [|c word IH]; intros s H; simpl in H.
  - by simplify_eq.
  - destruct s as [|c' s]; [done|]. destruct (decide (c = c')) as [->|]; [|done].
    by rewrite append_cons, <- (IH s H).
Qed.

Lemma hasChar_append (c : ascii) (a b : string) :
  hasChar c (a +:+ b) = hasChar c a || hasChar c b.
Proof.
  induction a as [|x a IH]; [done|].
  rewrite append_cons. simpl. by rewrite IH, orb_assoc.
Qed.

Lemma matchAt_has_M (s : string) (m : DateMatch) :
  matchAt s = Some m → hasChar "M" s = true.
Proof.
  unfold matchAt. intros H.
  apply bind_Some in H as ([mon r0] & E0 & H).
  apply bind_Some in H as (r1 & E1 & H).
  apply bind_Some in H as ([d r2] & E2 & H).
  apply bind_Some in H as (r3 & E3 & H).
  apply bind_Some in H as ([y r4] & E4 & H).
  apply bind_Some in H as (r5 & E5 & H).
  apply bind_Some in H as ([h r6] & E6 & H).
  apply bind_Some in H as (r7 & E7 & H).
  apply bind_Some in H as ([mi r8] & E8 & H).
  apply bind_Some in H as (r9 & E9 & H).
  apply bind_Some in H as (ap & E10 & _).
  apply group_split in E0, E2, E4, E6, E8.
  apply stripPrefix_split in E1, E3, E5, E7, E9.
  assert (hasChar "M" r9 = true) as HM.
  { destruct (Reference.stripPrefix "AM" r9) as [t|] eqn:EA.
    - apply stripPrefix_split in EA. by subst r9.
    - destruct (Reference.stripPrefix "PM" r9) as [t|] eqn:EP; [|done].
      apply stripPrefix_split in EP. by subst r9. }
  subst. rewrite !hasChar_append, HM. by rewrite !orb_true_r.
Qed.

Lemma matchDate_has_M (s : string) (m : DateMatch) :
  matchDate s = Some m → hasChar "M" s = true.
Proof.
  induction s as [|c s IH]; simpl.
  - destruct (matchAt "") eqn:E; [|done]. intros _. by apply matchAt_has_M in E.
  - destruct (matchAt (String c s)) eqn:E.
    + intros _. by apply matchAt_has_M in E.
    + intros H. rewrite (IH H). apply orb_true_r.
Qed.

Lemma dayWithinYear_bound (leap : bool) (m : Z) :
  (0 ≤ dayWithinYear leap m ≤ 335)%Z.
Proof. unfold dayWithinYear. destruct leap; repeat case_match; lia. Qed.

Lemma makeDate_bound (y m d h mi : Z) :
  (0 ≤ y ≤ 9999 → 0 ≤ m ≤ 11 → 0 ≤ d ≤ 99 → 0 ≤ h ≤ 23 → 0 ≤ mi ≤ 99 →
   Z.abs (makeDate (makeDay y m d) (makeTime h mi))
   ≤ 8640000000000000 - 86400000)%Z.
Proof.
  intros Hy Hm Hd Hh Hmi.
  unfold makeDate, makeTime, makeDay, dayFromYear.
  rewrite (Z.div_small m 12), (Z.mod_small m 12) by lia.
  pose proof (dayWithinYear_bound (inLeapYear (y + 0)) m).
  Z.div_mod_to_equations. lia.
Qed.

(** A local time with a year of at most four digits is in the range of
    dates in every time zone. *)
Lemma LocalTime_valid {tz : TimeZone} (y m d h mi : Z) :
  (0 ≤ y ≤ 9999 → 0 ≤ m ≤ 11 → 0 ≤ d ≤ 99 → 0 ≤ h ≤ 23 → 0 ≤ mi ≤ 99 →
   LocalTime y m d h mi
   = DateAt (utc (makeDate (makeDay y m d) (makeTime h mi))))%Z.
Proof.
  intros Hy Hm Hd Hh Hmi. unfold LocalTime, timeClip.
  pose proof (makeDate_bound y m d h mi Hy Hm Hd Hh Hmi) as Hb.
  set (t := makeDate (makeDay y m d) (makeTime h mi)) in *.
  pose proof (utcOffset_bound t).
  assert (Z.abs (utc t) ≤ 8640000000000000)%Z as Hle by (unfold utc; lia).
  by rewrite (proj2 (Z.leb_le _ _) Hle).
Qed.

Lemma parseDateString_falls_back_lemma {tz : TimeZone} (dateStr : string) :
  hasChar "M" dateStr = false → parseDateString dateStr = LocalTime 2025 10 11 12 30.
Proof.
  intros H. unfold parseDateString.
  destruct (matchDate dateStr) as [m|] eqn:E; [|done].
  apply matchDate_has_M in E. congruence.
Qed.

(** X15. A text without the letter [M] cannot match the pattern, which ends
    in [AM] or [PM]: [parseDateString] returns the fixed date
    [new Date(2025, 10, 11, 12, 30)] for it, and raises no error.  This
    covers the empty text, ISO dates and 24-hour times.  The fixed date is
    a valid one: 12:30 local time on 11 November 2025. *)
Theorem parseDateString_falls_back {tz : TimeZone} (dateStr : string) :
  hasChar "M" dateStr = false →
  matchDate dateStr = None
  ∧ parseDateString dateStr = LocalTime 2025 10 11 12 30
  ∧ LocalTime 2025 10 11 12 30 = DateAt (utc 1762864200000).
Proof.
  intros H. split; [|split; [by apply parseDateString_falls_back_lemma|]].
  - destruct (matchDate dateStr) as [m|] eqn:E; [|done].
    apply matchDate_has_M in E. congruence.
  - by rewrite LocalTime_valid by lia.
Qed.

Lemma parseDateString_falls_back_witness :
  hasChar "M" Scenario.isoText = false
  ∧ @parseDateString utcZone Scenario.isoText = DateAt 1762864200000.
Proof.
  split; [reflexivity|].
  destruct (@parseDateString_falls_back utcZone Scenario.isoText eq_refl)
    as (_ & Hrun & Hdate).
  rewrite Hrun. exact Hdate.
Defined.

Lemma parseInt10_digits (s : string) :
  allOf isDigitChar s = true → s ≠ "" → ∃ v, parseInt10 s = Some v ∧ (0 ≤ v)%Z.
Proof.
  intros Hall Hne. destruct s as [|c s]; [done|].
  simpl in Hall. apply andb_prop in Hall as [Hc Hall].
  unfold parseInt10. rewrite Hc. eexists. split; [reflexivity|].
  assert (Hacc : ∀ t acc, (0 ≤ acc)%Z → (0 ≤ (Reference.parseDigits acc t).1)%Z).
  { induction t as [|x t IH]; intros acc Hacc; simpl; [done|].
    unfold Reference.digitValue.
    destruct ((48 <=? N_of_ascii x)%N && (N_of_ascii x <=? 57)%N) eqn:E; [|done].
    apply IH. apply andb_prop in E as [E1 E2].
    apply N.leb_le in E1. lia. }
  by apply Hacc.
Qed.

Lemma matchDate_at (s : string) (m : DateMatch) :
  matchAt s = Some m → matchDate s = Some m.
Proof.
  intros H. destruct s as [|c s].
  - change (matchDate "")
      with (match matchAt "" with Some m => Some m | None => None end).
    by rewrite H.
  - change (matchDate (String c s))
      with (match matchAt (String c s) with
            | Some m => Some m
            | None => matchDate s
            end).
    by rewrite H.
Qed.

Lemma option_bind_Some {A B} (x : A) (f : A → option B) : Some x ≫= f = f x.
Proof. reflexivity. Qed.

(** The pattern matches at the head of a text of the expected shape, and
    the groups are the fields. *)
Lemma matchDate_well_formed (mon d y h mi ap tail : string) :
  allOf isWordChar mon = true → mon ≠ "" →
  allOf isDigitChar d = true → d ≠ "" →
  allOf isDigitChar y = true → y ≠ "" →
  allOf isDigitChar h = true → h ≠ "" →
  allOf isDigitChar mi = true → mi ≠ "" →
  ap = "AM" ∨ ap = "PM" →
  matchDate (mon +:+ " " +:+ d +:+ ", " +:+ y +:+ ", " +:+ h +:+ ":" +:+ mi
             +:+ " " +:+ ap +:+ tail)
  = Some (mkDateMatch mon d y h mi ap).
Proof.
  intros Hmon ? Hd ? Hy ? Hh ? Hmi ? Hap.
  assert (Hat : matchAt (mon +:+ " " +:+ d +:+ ", " +:+ y +:+ ", " +:+ h +:+ ":"
                         +:+ mi +:+ " " +:+ ap +:+ tail)
                = Some (mkDateMatch mon d y h mi ap)).
  { unfold matchAt.
    do 5 (rewrite group_app by done; rewrite option_bind_Some; cbv beta iota;
          rewrite stripPrefix_app, option_bind_Some; cbv beta iota).
    destruct Hap as [-> | ->]; reflexivity. }
  by apply matchDate_at.
Qed.

Lemma parseDateString_shape {tz : TimeZone} (mon d y h mi ap tail : string) :
  allOf isWordChar mon = true → mon ≠ "" →
  allOf isDigitChar d = true → d ≠ "" →
  allOf isDigitChar y = true → y ≠ "" →
  allOf isDigitChar h = true → h ≠ "" →
  allOf isDigitChar mi = true → mi ≠ "" →
  ap = "AM" ∨ ap = "PM" →
  parseDateString (mon +:+ " " +:+ d +:+ ", " +:+ y +:+ ", " +:+ h +:+ ":" +:+ mi
                   +:+ " " +:+ ap +:+ tail)
  = newDate (parseInt10 y) (monthMap !! mon) (parseInt10 d)
      (to24Hour ap <$> parseInt10 h) (parseInt10 mi).
Proof.
  intros. unfold parseDateString. by rewrite matchDate_well_formed.
Qed.

Lemma monthMap_names (mon : string) (index : Z) :
  monthMap !! mon = Some index →
  allOf isWordChar mon = true ∧ mon ≠ "" ∧ (0 ≤ index ≤ 11)%Z.
Proof.
  intros H. apply elem_of_list_to_map_2 in H.
  repeat (apply elem_of_cons in H as [H|H];
          [injection H as -> ->; split; [reflexivity|]; split; [discriminate|lia]|]).
  by apply elem_of_nil in H.
Qed.

(** X16. A text that begins with a date of the expected shape, such as
    [Nov 8, 2025, 10:00 PM], with one of the twelve month abbreviations and
    an hour from 1 to 12, gives the date the constructor builds for the
    local time written: the day and the minutes are the numbers written,
    the month is the zero-based index of the abbreviation, the hour is on
    the 24-hour clock, with 12 AM as 0 and 12 PM as 12, and the year is the
    number written, except that a year from 0 to 99 counts from 1900.  As
    the constructor does, this rolls a day beyond the end of the month, or
    minutes beyond 59, over into the next month or hour, and it gives an
    invalid date beyond the range of dates; with a year of at most four
    digits and a day and minutes of at most two the date is valid.  What
    follows the date in the text is ignored. *)
Theorem parseDateString_reads_twelve_hour_time {tz : TimeZone}
    (mon d y h mi ap tail : string) (index hour : Z) :
  allOf isDigitChar d = true → d ≠ "" →
  allOf isDigitChar y = true → y ≠ "" →
  allOf isDigitChar h = true →
  allOf isDigitChar mi = true → mi ≠ "" →
  ap = "AM" ∨ ap = "PM" →
  monthMap !! mon = Some index →
  parseInt10 h = Some hour → (1 ≤ hour ≤ 12)%Z →
  ∃ yv dv miv,
    parseInt10 y = Some yv ∧ parseInt10 d = Some dv ∧ parseInt10 mi = Some miv
    ∧ (0 ≤ index ≤ 11)%Z
    ∧ (0 ≤ hour `mod` 12 + (if decide (ap = "PM") then 12 else 0) < 24)%Z
    ∧ parseDateString (mon +:+ " " +:+ d +:+ ", " +:+ y +:+ ", " +:+ h +:+ ":"
                       +:+ mi +:+ " " +:+ ap +:+ tail)
      = LocalTime (if decide (yv ≤ 99)%Z then 1900 + yv else yv)%Z index dv
          (hour `mod` 12 + (if decide (ap = "PM") then 12 else 0)) miv
    ∧ ((yv ≤ 9999)%Z → (dv ≤ 99)%Z → (miv ≤ 99)%Z →
       ∃ t, parseDateString (mon +:+ " " +:+ d +:+ ", " +:+ y +:+ ", " +:+ h +:+ ":"
                             +:+ mi +:+ " " +:+ ap +:+ tail)
            = DateAt t).
Proof.
  intros Hd ? Hy ? Hh Hmi ? Hap Hidx Hhour Hrange.
  destruct (monthMap_names mon index Hidx) as (Hmon & ? & ?).
  assert (h ≠ "") by (intros ->; discriminate Hhour).
  destruct (parseInt10_digits y) as (yv & Hyv & ?); [done..|].
  destruct (parseInt10_digits d) as (dv & Hdv & ?); [done..|].
  destruct (parseInt10_digits mi) as (miv & Hmiv & ?); [done..|].
  exists yv, dv, miv. repeat (split; [done|]).
  assert (H24 : (0 ≤ hour `mod` 12 + (if decide (ap = "PM") then 12 else 0) < 24)%Z).
  { pose proof (Z.mod_pos_bound hour 12 ltac:(lia)).
    destruct (decide (ap = "PM")); lia. }
  split; [exact H24|].
  rewrite parseDateString_shape by done.
  rewrite Hyv, Hdv, Hmiv, Hidx, Hhour. simpl.
  assert (to24Hour ap hour
          = (hour `mod` 12 + (if decide (ap = "PM") then 12 else 0))%Z) as ->.
  { unfold to24Hour. destruct Hap as [-> | ->]; simpl.
    - destruct (hour =? 12)%Z eqn:E.
      + apply Z.eqb_eq in E as ->. reflexivity.
      + apply Z.eqb_neq in E. rewrite Z.mod_small by lia. lia.
    - destruct (hour <? 12)%Z eqn:E.
      + apply Z.ltb_lt in E. rewrite Z.mod_small by lia. lia.
      + apply Z.ltb_ge in E. assert (hour = 12)%Z as -> by lia. reflexivity. }
  assert (Hyear : makeFullYear yv = (if decide (yv ≤ 99)%Z then 1900 + yv else yv)%Z).
  { unfold makeFullYear. destruct (decide (yv ≤ 99)%Z).
    - rewrite decide_True; [done | lia].
    - rewrite decide_False; [done | lia]. }
  rewrite Hyear. split; [reflexivity|].
  intros ? ? ?. eexists. apply LocalTime_valid; try lia.
  destruct (decide (yv ≤ 99)%Z); lia.
Qed.

Lemma parseDateString_reads_twelve_hour_time_witness :
  monthMap !! "Nov" = Some 10%Z
  ∧ parseInt10 "10" = Some 10%Z
  ∧ @parseDateString utcZone Scenario.evening = @LocalTime utcZone 2025 10 8 22 0
  ∧ @parseDateString utcZone Scenario.evening = DateAt 1762639200000.
Proof.
  split; [reflexivity|]. split; [reflexivity|].
  destruct (@parseDateString_reads_twelve_hour_time utcZone
              "Nov" "8" "2025" "10" "00" "PM" "" 10 10)
    as (yv & dv & miv & Hy & Hd & Hmi & _ & _ & Hrun & _);
    [reflexivity | discriminate | reflexivity | discriminate | reflexivity
    | reflexivity | discriminate | by right | reflexivity | reflexivity | lia |].
  injection Hy as <-. injection Hd as <-. injection Hmi as <-.
  split; [exact Hrun | exact (eq_trans Hrun eq_refl)].
Defined.

(** The model of the constructor on the cases where it does more than keep
    its arguments, in the time zone UTC: a year of two digits counts from
    1900; a day and minutes that overflow roll over; a year beyond the
    range of dates gives an invalid date. *)
Lemma parseDateString_edge_cases :
  @parseDateString utcZone Scenario.shortYear = @LocalTime utcZone 1925 10 8 10 0
  ∧ @parseDateString utcZone Scenario.shortYear = DateAt (-1393164000000)
  ∧ @parseDateString utcZone Scenario.overflowing
    = @parseDateString utcZone Scenario.nextDay
  ∧ @parseDateString utcZone Scenario.nextDay = DateAt 1764587700000
  ∧ @parseDateString utcZone "Nov 8, 275761, 10:00 AM" = InvalidDate.
Proof.
  split; [vm_compute; reflexivity|]. split; [vm_compute; reflexivity|].
  split; [vm_compute; reflexivity|]. split; vm_compute; reflexivity.
Qed.

(** X17. A text of the expected shape whose month word is not one of the
    twelve abbreviations, for instance a month spelled out in full, gives an
    invalid date, not the fallback date: the pattern matches, and the month
    index handed to the constructor is not a number. *)
Theorem parseDateString_unknown_month_is_invalid {tz : TimeZone}
    (mon d y h mi ap tail : string) :
  allOf isWordChar mon = true → mon ≠ "" →
  allOf isDigitChar d = true → d ≠ "" →
  allOf isDigitChar y = true → y ≠ "" →
  allOf isDigitChar h = true → h ≠ "" →
  allOf isDigitChar mi = true → mi ≠ "" →
  ap = "AM" ∨ ap = "PM" →
  monthMap !! mon = None →
  parseDateString (mon +:+ " " +:+ d +:+ ", " +:+ y +:+ ", " +:+ h +:+ ":" +:+ mi
                   +:+ " " +:+ ap +:+ tail)
  = InvalidDate.
Proof.
  intros ? ? ? ? ? ? ? ? ? ? ? Hidx.
  rewrite parseDateString_shape by done. rewrite Hidx.
  unfold newDate. by destruct (parseInt10 y).
Qed.

Lemma parseDateString_unknown_month_is_invalid_witness :
  monthMap !! "November" = None
  ∧ @parseDateString utcZone Scenario.spelledOut = InvalidDate.
Proof.
  split; [reflexivity|].
  apply (@parseDateString_unknown_month_is_invalid utcZone
           "November" "8" "2025" "10" "00" "AM" "");
    first [reflexivity | discriminate | by left].
Defined.



(** ** The chat window *)

Section ChatLauncherFacts.
Import ChatLauncher.
Variable greeting : string.
Variable oops : string.

Lemma truthy_trim (s : string) : truthy (Some (trim s)) = negb (allWhite s).
Proof.
  destruct (allWhite s) eqn:Hs.
  - apply trim_blank_iff in Hs. by rewrite Hs.
  - destruct (trim s) eqn:Ht; [|done].
    apply trim_blank_iff in Ht. congruence.
Qed.

Lemma submit_None (uid : string) (raw : option string) (st : State) :
  submit uid raw st = None
  ↔ allWhite (default (input st) raw) = true ∨ loading st = true.
Proof.
  unfold submit. rewrite truthy_trim, negb_involutive.
  destruct (allWhite _), (loading st); simpl; split; intros H;
    try done; auto; by destruct H.
Qed.

Lemma submit_Some (uid : string) (raw : option string) (st st1 : State)
    (request : Request) :
  submit uid raw st = Some (st1, request) →
  allWhite (default (input st) raw) = false ∧ loading st = false ∧
  let userMsg := {| id := uid; role := user;
                    content := trim (default (input st) raw) |} in
  st1 = {| open := open st; input := ""; messages := messages st ++ [userMsg];
           loading := true |} ∧
  request = {| history := messages st ++ [userMsg];
               userText := trim (default (input st) raw) |}.
Proof.
  unfold submit. rewrite truthy_trim, negb_involutive.
  destruct (allWhite _), (loading st); simpl; try done.
  intros [= <- <-]. done.
Qed.

Lemma turns_question (n : nat) : turns n false ++ [user] = turns n true.
Proof. unfold turns. simpl. by rewrite app_nil_r. Qed.

Lemma replicate_concat_comm {A} (p : list A) (n : nat) :
  concat (replicate n p) ++ p = p ++ concat (replicate n p).
Proof.
  induction n as [|n IH]; simpl; [by rewrite app_nil_r|].
  by rewrite <- app_assoc, IH.
Qed.

Lemma turns_answer (n : nat) : turns n true ++ [assistant] = turns (S n) false.
Proof.
  unfold turns. simpl. rewrite app_nil_r. f_equal.
  rewrite <- app_assoc. simpl.
  apply (replicate_concat_comm [user; assistant] n).
Qed.

(** X19. [handleSend] leaves the chat as it is and calls no API exactly when
    the text to send (the argument if given, the composer otherwise) is
    blank or a reply is pending. *)
Theorem handleSend_ignored_iff_blank_or_pending (env : Answers)
    (raw : option string) (st : State) :
  handleSend oops env raw st = (st, [])
  ↔ allWhite (default (input st) raw) = true ∨ loading st = true.
Proof.
  rewrite <- submit_None with (uid := uid1 env). unfold handleSend.
  destruct (submit _ raw st) as [[st1 request]|]; [|done].
  split; [|done]. intros [= _ ?].
Qed.

(** X20. A call of [handleSend] with a text that is not blank and no reply
    pending appends two messages to the conversation: the question, with
    the trimmed text and the role [user], then an answer with the role
    [assistant].  The API is called once, with the conversation up to and
    including the question and with the trimmed text.  The answer is the
    reply of the API, or, when the call fails, the error notice followed by
    the [message] of the failure if it has one and by the failure's own
    text otherwise.  Either way the composer ends empty and [loading]
    false, and the window stays open or closed as it was. *)
Theorem handleSend_appends_question_and_answer (env : Answers)
    (raw : option string) (st : State) :
  allWhite (default (input st) raw) = false →
  loading st = false →
  ∃ question answer,
    handleSend oops env raw st
    = ({| open := open st; input := "";
          messages := messages st ++ [question; answer]; loading := false |},
       [ {| history := messages st ++ [question]; userText := content question |} ])
    ∧ question = {| id := uid1 env; role := user;
                    content := trim (default (input st) raw) |}
    ∧ content question ≠ ""
    ∧ id answer = uid2 env
    ∧ role answer = assistant
    ∧ content answer = match result env with
                       | inl reply => reply
                       | inr e => oops +:+ default (shown e) (message e)
                       end.
Proof.
  intros Htext Hidle. unfold handleSend.
  destruct (submit (uid1 env) raw st) as [[st1 request]|] eqn:Hs.
  - apply submit_Some in Hs as (_ & _ & -> & ->).
    exists {| id := uid1 env; role := user;
              content := trim (default (input st) raw) |}.
    eexists. split.
    + unfold settle, setLoading, pushMessage. simpl.
      rewrite <- app_assoc. reflexivity.
    + simpl. split; [done|]. split; [|done].
      intros Hblank. apply trim_blank_iff in Hblank. congruence.
  - apply submit_None in Hs as [Hs|Hs]; congruence.
Qed.

(** X21. While a reply is pending nothing more is sent.  Once [handleSend]
    has passed its guard, [loading] is set, and until the reply arrives any
    further call of [handleSend], with any text and also after the user
    typed or toggled the window, leaves the state as it is and calls no
    API. *)
Theorem no_second_request_while_pending (uid : string) (raw : option string)
    (st st1 : State) (request : Request) :
  submit uid raw st = Some (st1, request) →
  loading st1 = true
  ∧ ∀ (env : Answers) (raw' : option string) (typed : string) (b : bool),
      handleSend oops env raw' st1 = (st1, [])
      ∧ handleSend oops env raw' (setInput typed st1) = (setInput typed st1, [])
      ∧ handleSend oops env raw' (setOpen b st1) = (setOpen b st1, []).
Proof.
  intros Hs. apply submit_Some in Hs as (_ & _ & -> & _).
  split; [done|]. intros env raw' typed b.
  assert (Hnone : ∀ st', loading st' = true →
            handleSend oops env raw' st' = (st', [])).
  { intros st' Hl. unfold handleSend.
    assert (submit (uid1 env) raw' st' = None) as ->; [|done].
    apply submit_None. by right. }
  repeat split; by apply Hnone.
Qed.

Lemma step_turns (st st' : State) :
  step oops st st' →
  (∃ n, role <$> messages st = turns n (loading st)) →
  ∃ n, role <$> messages st' = turns n (loading st').
Proof.
  intros Hstep [n Hn]. destruct Hstep as [st s|st b|st uid raw st1 request Hs|st uid r Hl].
  - by exists n.
  - by exists n.
  - apply submit_Some in Hs as (_ & Hidle & -> & _). exists n. simpl.
    rewrite fmap_app, Hn, Hidle. apply turns_question.
  - exists (S n). simpl. rewrite fmap_app, Hn, Hl. apply turns_answer.
Qed.

(** X22. In every state the chat can reach from its first render, by typing,
    opening or closing, sending and replies arriving, the conversation
    alternates: it begins with the greeting of the assistant, continues
    with question and answer pairs, and ends with an unanswered question
    exactly when [loading] is set.  It holds [2 n + 1] messages after [n]
    answered questions, one more while a reply is pending. *)
Theorem conversation_alternates (uid0 : string) (defaultOpen : bool) (st : State) :
  rtc (step oops) (initial greeting uid0 defaultOpen) st →
  ∃ n, role <$> messages st = turns n (loading st)
       ∧ length (messages st) = (2 * n + 1 + (if loading st then 1 else 0))%nat.
Proof.
  intros Hrun.
  assert (H : ∃ n, role <$> messages st = turns n (loading st)).
  { revert st Hrun. apply rtc_ind_r; [by exists 0%nat|].
    intros st1 st2 _ Hstep IH. by eapply step_turns. }
  destruct H as [n Hn]. exists n. split; [done|].
  assert (Hlen : length (concat (replicate n [user; assistant])) = (2 * n)%nat).
  { clear. induction n as [|n IH]; [done|]. simpl. rewrite IH. lia. }
  rewrite <- (length_fmap role), Hn. unfold turns.
  rewrite length_cons, length_app, Hlen. destruct (loading st); simpl; lia.
Qed.

End ChatLauncherFacts.

Lemma handleSend_appends_question_and_answer_witness :
  allWhite (default (ChatLauncher.input Scenario.asking) None) = false
  ∧ ChatLauncher.loading Scenario.asking = false
  ∧ ∃ st' request,
      ChatLauncher.handleSend "Oops: " Scenario.down None Scenario.asking
      = (st', [request])
      ∧ ChatLauncher.content <$> ChatLauncher.messages st'
        = ["Hi!"; "Any classes today?"; "Oops: Failed to fetch"]
      ∧ ChatLauncher.userText request = "Any classes today?".
Proof.
  split; [reflexivity|]. split; [reflexivity|].
  destruct (handleSend_appends_question_and_answer "Oops: " Scenario.down None
              Scenario.asking eq_refl eq_refl)
    as (question & answer & Hrun & -> & _ & _ & _ & Hanswer).
  eexists _, _. split; [exact Hrun|].
  cbn [ChatLauncher.messages ChatLauncher.userText ChatLauncher.content].
  split; [|reflexivity].
  rewrite fmap_app. cbn [fmap list_fmap]. rewrite Hanswer. reflexivity.
Defined.

Lemma no_second_request_while_pending_witness :
  ∃ st1 request,
    ChatLauncher.submit "u1" None Scenario.asking = Some (st1, request)
    ∧ ChatLauncher.loading st1 = true
    ∧ ChatLauncher.handleSend "Oops: " Scenario.down (Some "Again?") st1 = (st1, []).
Proof.
  eexists _, _. split; [reflexivity|].
  destruct (no_second_request_while_pending "Oops: " "u1" None Scenario.asking _ _ eq_refl)
    as [Hloading Hignored].
  split; [exact Hloading|].
  exact (proj1 (Hignored Scenario.down (Some "Again?") "" true)).
Defined.

Lemma conversation_alternates_witness :
  ∃ st, rtc (ChatLauncher.step "Oops: ") (ChatLauncher.initial "Hi!" "u0" true) st
        ∧ ChatLauncher.loading st = true
        ∧ ChatLauncher.role <$> ChatLauncher.messages st
          = [ChatLauncher.assistant; ChatLauncher.user]
        ∧ ∃ n, length (ChatLauncher.messages st) = (2 * n + 1 + 1)%nat.
Proof.
  assert (Hrun : rtc (ChatLauncher.step "Oops: ") (ChatLauncher.initial "Hi!" "u0" true)
                   (ChatLauncher.mkState true ""
                      [ChatLauncher.mkChatMessage "u0" ChatLauncher.assistant "Hi!";
                       ChatLauncher.mkChatMessage "u1" ChatLauncher.user
                         "Any classes today?"] true)).
  { eapply rtc_l; [apply (ChatLauncher.step_type "Oops: " _ "  Any classes today? ")|].
    eapply rtc_l; [|apply rtc_refl].
    eapply (ChatLauncher.step_submit "Oops: " _ "u1" None). reflexivity. }
  eexists. split; [exact Hrun|]. split; [reflexivity|]. split; [reflexivity|].
  destruct (conversation_alternates "Hi!" "Oops: " "u0" true _ Hrun) as (n & _ & Hlen).
  exists n. exact Hlen.
Defined.
